(* ===== verification/_CoqProject ===== *)
-Q . S2P
Prelude.v
Validate.v
Placement.v
Solver.v
Spec.v
Log.v
Adapter.v
Routes.v
Tests.v
