(* ===== verification/Prelude.v ===== *)
(** * A verification development of UnicornTowel314/sudoku-solver

    The program.  The repository's logic is one JavaScript class,
    [SudokuSolver] in src/controllers/sudoku-solver.js.  An instance
    carries one field, [actualPuzzle] (the last puzzle string it tried
    to solve), and five methods:
    - [validate(puzzleString)]: the 81-character / [0-9.] format gate;
    - [checkRowPlacement], [checkColPlacement], [checkRegionPlacement]
      [(puzzleString, row, column, value)]: placement legality per house;
    - [solve(puzzleString)]: single-candidate propagation, recursing on
      its own output, guarded by [actualPuzzle] against a pass that made
      no progress, and ending in a row/column uniqueness check that calls
      [this.isUnique], a method the class never defines.
    [solve] calls [validate] and, through [this], the three checkers and
    [isUnique].  An HTTP server (absent from the repository; the tests
    [require] it) serves [/api/solve] and [/api/check] from one shared
    instance; src/tests holds a unit suite on one instance and a
    functional suite against the server.

    The library (the files of _CoqProject, in dependency order).
    - Prelude.v (this file): the JavaScript values the code touches.
      Strings are [jstr] (lists of [ascii]); values [jsval] are
      undefined, booleans, strings and numbers; [s[i]] is
      [js_char (s !! i)]; [===] is [js_strict_eq]; [String(v)] is
      [js_String]; [slice]/[substr] are [take]/[drop]; [includes] is
      [js_includes]; [acc += s[i]] appends [js_index_str] (an
      out-of-range index appends "undefined", as JavaScript does) and
      [cells] is such a loop over an index list; exceptions are the
      [throws] error monad with its [let*] notation in [js_scope].
      Shared list lemmas, the [sudoku] hint databases and the
      [decide_by_eval] tactic live here.
    - Validate.v, Module [Validate]: [validate] (lines 5-18) and the
      regular expression [/^[0-9.]{81}$/] as [regex_test].  Theorems
      C7-C9: the length error comes first, then the character error,
      and [true] exactly on 81 characters of [[0-9.]].
    - Placement.v, Module [Placement]: the three checkers (lines 20-91)
      and the house strings they build; [value] is any [jsval].
      Theorems C5, C6: on an 81-cell grid the row and column checks
      accept a one-character string exactly when it is at the cell or
      absent from the house, so the "already filled" guards
      [!x === "."] are dead; C26: a number [value] is never [===] to the
      cell, so a digit already there conflicts with itself; C27: rows
      past the grid accept everything.
    - Solver.v, Module [Solver]: the instance state [SudokuSolver]
      ([actualPuzzle]), the method table [Methods] ([this.] dispatch;
      [m_isUnique] is an [option], [None] in [SudokuSolver_prototype],
      the class as written), the two loops of one pass ([tempSolution],
      [resolveEntry], [newPuzzle]) and their cell-wise form [pass], the
      final check [checkSolved] (rows, columns, and a region loop that
      runs zero times) and [solve_fuel], the recursive [solve].
      Theorems: C1 termination within [solve_bound] and fuel
      independence; C23 at most [count '.' + 2] calls; C10 the loops
      compute the cell-wise pass; C11 the count of '.' is a measure and
      C28 iterated passes reach a fixed point within that many steps; C2
      row/column soundness when [isUnique] accepts only permutations of
      1..9; C20 the final check returns the grid exactly when [isUnique]
      accepts its rows and columns, never asking about a region; C3 the
      class as written never returns a grid, and C25 it throws exactly
      when iterated passes fill the grid and returns [false] exactly when
      they stall; C22 format errors become [false]; C12 history
      independence of the guard; C21 when a resubmission is refused: the
      instance remembers its input exactly when the first pass stalls or
      completes the grid; C18 the recursion refines the spec's bounded
      loop with a non-progress flag ([solve_loop], spec section 9) on
      every call whose input is not the remembered puzzle; C13 the
      invariant of the remembered puzzle over all states reachable by
      [engine_step] (rule induction on [rtc]); C14 idempotence on solved
      grids.
    - Spec.v, Module [Spec]: the spec's words as abstract definitions:
      the candidate set of section 3, the corrected region check of
      section 4.2, the permutation test of section 4.3, and method
      tables that plug them into the code's [solve]; a solution of a
      puzzle, [solution_of] (81 digits, no house with a repeat, the
      puzzle's cells kept).  Theorems: C15 the class's candidates are
      the row/column candidates, and with the spec's region check one
      pass of the code is the spec's single-candidate pass [spec_pass]
      (C17, refinements); C4 the class's region check accepts conflicts
      the spec rejects; C16 a pass, with the class's candidates or the
      spec's, keeps every solution of its input a solution of its
      output, so C24 on a solvable puzzle the engine with the spec's
      methods (or the class with [isUnique] only) returns [false] or
      exactly the solution, although its final check ignores regions.
    - Log.v, Module [Logging]: the six [console.log] calls of [solve]
      as printed lines: [logged] pairs the lines with the result,
      [checkSolved_log] and [solve_log_fuel] are the final check and
      [solve] with their output.  Theorem C19: dropping the output gives
      exactly [solve_fuel], and every run prints one line saying how it
      ended, then at most the failing row or column line.
    - Adapter.v, Module [Adapter]: the aggregate placement check of the
      check route over a method table (modelled from the spec), the
      spec's scenarios evaluated on the model as examples, and the
      witnesses of the theorems above.
    - Routes.v, Module [Routes]: the two routes, modelled from the spec
      and the functional tests' messages: [api_solve] (missing field,
      format errors, then [solve]'s answer), [api_check] (missing
      fields, format errors, coordinate, value, then the aggregate
      check), coordinate parsing [parse_coordinate] and printing, and
      [serve_all], one instance answering a request sequence; the
      coordinate round trip [parse_coordinate_iff].
    - Tests.v, Module [Tests]: both test suites as data, run in file
      order on one instance or one server; the examples
      [unit_suite_results] and [functional_suite_results] evaluate them:
      the class fails 3 of 12 unit tests and 3 of 14 functional tests,
      the spec's methods pass all of them.

    Findings.  [this.isUnique] is undefined (C3); the region check
    accepts conflicts (C4), so candidates ignore regions and the spec's
    scenario 1 stalls and returns [false] (C25); with the spec's region
    check and [isUnique] the same [solve] returns the expected solution
    and every test passes (the two suite examples); the region loop of
    the final check never runs (C20); the resubmission guard refuses a
    resubmission only when the first pass stalled or completed the grid
    (C21, C12); a numeric [value], as the tests send it, is never [===]
    to the cell (C26); no checker bounds-checks its row (C27); two
    functional tests of the check route post to the solve route;
    [solve] prints to the console and turns format errors into [false]
    (C19, C22), where the spec says the engine never logs or swallows
    errors; the remembered puzzle is shared by all requests, so one
    client's request can make another's solvable puzzle "cannot be
    solved" (the race of spec section 5, shown by
    [Tests.shared_instance_race]).  The region loop's gap (C20) can
    only let through a grid the input does not constrain to a solution:
    on solvable puzzles the returned grid is the solution (C24).

    Fuel.  [solve] recurses on the grid its pass produced.  A pass keeps
    every filled cell and can only turn '.' into a digit, so either the
    count of '.' drops or the grid is unchanged, and an unchanged grid
    equals [actualPuzzle] and is refused by the guard on the next call.
    A valid grid has at most 81 '.', so at most 81 productive calls, one
    final call and one guarded call: 83 units of fuel always suffice,
    and any larger fuel gives the same answer ([Solver.solve_terminates]).
    The routes call [solve] through [solve_total], whose default for an
    exhausted fuel is never taken.

    Not modelled: Express itself
    (JSON body parsing, HTTP status codes, the listener); which fields
    count as missing beyond an absent one, the order of the check
    route's validations and whether the route hands the checkers the
    raw [value] are not fixed by the repository, and the model takes
    the spec's order with the raw value; numbers are natural numbers
    (the values the tests send), not IEEE doubles; UTF-16 code units
    above 255 (each fails the [0-9.] test as an ASCII letter does).
    Every operation of the class, its state, its console output and
    both test suites are modelled; the class defines no [isUnique], so
    its call is modelled as the TypeError it raises.  What remains
    unmodelled is outside the repository (the server) or below the
    level of the code (the JavaScript engine).
*)

From stdpp Require Export base list sets relations strings pretty.
From Stdlib Require Export Ascii Lia.

(** JavaScript strings are sequences of characters. *)
Abbreviation jstr := (list ascii).

(** A string literal of the source as a [jstr]. *)
Definition js (s : string) : jstr := String.list_ascii_of_string s.

(** ** JavaScript values compared with [===] *)

Inductive jsval :=
| JUndefined
| JBool (b : bool)
| JStr (s : jstr)
| JNum (n : nat).

#[export] Instance jsval_eq_dec : EqDecision jsval.
Proof. solve_decision. Defined.

(** [s[i]]: the one-character string at [i], or [undefined]. *)
Definition js_char (o : option ascii) : jsval :=
  match o with Some c => JStr [c] | None => JUndefined end.

(** [String(s[i])], as used by [acc += s[i]]. *)
Definition js_index_str (o : option ascii) : jstr :=
  match o with Some c => [c] | None => js "undefined" end.

Definition js_strict_eq (a b : jsval) : bool :=
  match a, b with
  | JUndefined, JUndefined => true
  | JBool x, JBool y => Bool.eqb x y
  | JStr x, JStr y => bool_decide (x = y)
  | JNum x, JNum y => Nat.eqb x y
  | _, _ => false
  end.

Definition js_truthy (v : jsval) : bool :=
  match v with
  | JUndefined => false
  | JBool b => b
  | JStr s => negb (bool_decide (s = []))
  | JNum n => negb (Nat.eqb n 0)
  end.

(** The prefix operator [!]. *)
Definition js_not (v : jsval) : jsval := JBool (negb (js_truthy v)).

Declare Scope js_scope.
Delimit Scope js_scope with js.
Notation "a === b" := (js_strict_eq a b) (at level 70, no associativity) : js_scope.
Notation "a !== b" := (negb (js_strict_eq a b)) (at level 70, no associativity) : js_scope.

(** [Number.prototype.toString] on a natural number. *)
Definition js_toString (n : nat) : jstr := js (pretty n).

(** [String(v)], the conversion [includes] applies to its argument. *)
Definition js_String (v : jsval) : jstr :=
  match v with
  | JUndefined => js "undefined"
  | JBool b => if b then js "true" else js "false"
  | JStr s => s
  | JNum n => js_toString n
  end.

(** [String.prototype.slice(b, e)] with [0 <= b <= e]. *)
Definition js_slice (s : jstr) (b e : nat) : jstr := take (e - b) (drop b s).

(** [String.prototype.substr(b, n)] with [0 <= b]. *)
Definition js_substr (s : jstr) (b n : nat) : jstr := take n (drop b s).

Fixpoint js_prefix (needle hay : jstr) : bool :=
  match needle, hay with
  | [], _ => true
  | c :: n, d :: h => bool_decide (c = d) && js_prefix n h
  | _ :: _, [] => false
  end.

(** [hay.includes(needle)]: [needle] occurs at some position of [hay]. *)
Fixpoint js_includes (hay needle : jstr) : bool :=
  js_prefix needle hay ||
  match hay with [] => false | _ :: h => js_includes h needle end.

(** Number of occurrences of a character. *)
Definition count_char (c : ascii) (s : jstr) : nat :=
  length (filter (fun d => d = c) s).

Definition dot : ascii := "."%char.

(** The string [acc] built by [for (...) acc += s[i]] over the indices
    [idxs], starting from [""]. *)
Definition cells (s : jstr) (idxs : list nat) : jstr :=
  fold_left (fun acc i => acc ++ js_index_str (s !! i)) idxs [].

(** ** Exceptions *)

Inductive js_error := TypeError (msg : string).

#[export] Instance js_error_eq_dec : EqDecision js_error.
Proof. solve_decision. Defined.

(** A computation that returns normally or throws. *)
Inductive throws (A : Type) := Ok (a : A) | Throw (e : js_error).
Arguments Ok {A} a.
Arguments Throw {A} e.

#[export] Instance throws_eq_dec {A} `{EqDecision A} : EqDecision (throws A).
Proof. solve_decision. Defined.

Definition throws_bind {A B} (c : throws A) (k : A -> throws B) : throws B :=
  match c with Ok a => k a | Throw e => Throw e end.

Notation "'let*' x := c 'in' k" := (throws_bind c (fun x => k))
  (at level 10, x name, c at level 100, k at level 200) : js_scope.

(** ** Automation *)

Create HintDb sudoku discriminated.
Create Rewrite HintDb sudoku_rw.

(** Close a closed decidable goal [P] or [~ P] by evaluating [bool_decide P]. *)
Ltac decide_by_eval :=
  first [ refine (bool_decide_eq_true_1 _ _) | refine (bool_decide_eq_false_1 _ _) ];
  vm_compute; reflexivity.

Ltac js_simp :=
  cbn [js_strict_eq js_char js_not js_truthy throws_bind] in *.

(** ** Shared lemmas *)

Lemma js_prefix_single c hay :
  js_prefix [c] hay = match hay with d :: _ => bool_decide (c = d) | [] => false end.
Proof. destruct hay; simpl; [done|]. by rewrite andb_true_r. Qed.

Lemma js_includes_single hay c : js_includes hay [c] = true <-> c ∈ hay.
Proof.
  induction hay as [|d hay IH]; simpl; [split; [done|set_solver]|].
  rewrite orb_true_iff, andb_true_r, bool_decide_eq_true, IH, elem_of_cons.
  naive_solver.
Qed.

Lemma js_includes_single_false hay c : js_includes hay [c] = false <-> c ∉ hay.
Proof. rewrite <- js_includes_single. destruct (js_includes _ _); naive_solver. Qed.

Lemma js_includes_nil hay : js_includes hay [] = true.
Proof. destruct hay; reflexivity. Qed.

Lemma js_strict_eq_str x y : js_strict_eq (JStr x) (JStr y) = bool_decide (x = y).
Proof. reflexivity. Qed.

Lemma js_strict_eq_char_str o v :
  js_strict_eq (js_char o) (JStr v) = true <-> exists c, o = Some c /\ v = [c].
Proof.
  destruct o as [c|]; simpl; [|naive_solver].
  rewrite bool_decide_eq_true. naive_solver.
Qed.

(** A negated value is a boolean, never a string: [!x === s] is false. *)
Lemma js_not_strict_eq_str v s : js_strict_eq (js_not v) (JStr s) = false.
Proof. reflexivity. Qed.

Lemma count_char_app c s1 s2 : count_char c (s1 ++ s2) = count_char c s1 + count_char c s2.
Proof. unfold count_char. by rewrite filter_app, length_app. Qed.

Lemma count_char_cons c d s :
  count_char c (d :: s) = (if decide (d = c) then 1 else 0) + count_char c s.
Proof. unfold count_char. rewrite filter_cons. case_decide; reflexivity. Qed.

Lemma count_char_le c s : count_char c s <= length s.
Proof. unfold count_char. apply length_filter. Qed.

Lemma count_char_0 c s : count_char c s = 0 <-> c ∉ s.
Proof.
  induction s as [|d s IH]; [set_solver|].
  rewrite count_char_cons, elem_of_cons. case_decide; [naive_solver|].
  rewrite IH. naive_solver.
Qed.

Lemma js_includes_dot s : js_includes s [dot] = bool_decide (dot ∈ s).
Proof.
  destruct (js_includes s [dot]) eqn:E; symmetry.
  - apply bool_decide_eq_true, js_includes_single, E.
  - apply bool_decide_eq_false, js_includes_single_false, E.
Qed.

Lemma fold_left_app_concat {A} (f : A -> jstr) (l : list A) (acc : jstr) :
  fold_left (fun acc i => acc ++ f i) l acc = acc ++ concat (map f l).
Proof.
  revert acc. induction l as [|x l IH]; intros acc; simpl; [by rewrite app_nil_r|].
  by rewrite IH, app_assoc.
Qed.

Lemma cells_concat s idxs : cells s idxs = concat (map (fun i => js_index_str (s !! i)) idxs).
Proof. unfold cells. by rewrite fold_left_app_concat. Qed.

Lemma cells_cons_in s i idxs c :
  s !! i = Some c -> cells s (i :: idxs) = c :: cells s idxs.
Proof. intros H. rewrite !cells_concat. simpl. by rewrite H. Qed.

Lemma cells_length s idxs :
  Forall (fun i => i < length s) idxs -> length (cells s idxs) = length idxs.
Proof.
  induction 1 as [|i idxs Hi _ IH]; [done|].
  destruct (lookup_lt_is_Some_2 s i Hi) as [c Hc].
  rewrite (cells_cons_in _ _ _ c Hc). simpl. by rewrite IH.
Qed.

Lemma cells_lookup s idxs k :
  Forall (fun i => i < length s) idxs ->
  cells s idxs !! k = idxs !! k ≫= (fun i => s !! i).
Proof.
  intros H. revert k. induction H as [|i idxs Hi _ IH]; intros k; [done|].
  destruct (lookup_lt_is_Some_2 s i Hi) as [c Hc].
  rewrite (cells_cons_in _ _ _ c Hc). destruct k; simpl; [done|]. apply IH.
Qed.

Lemma cells_elem s idxs c :
  Forall (fun i => i < length s) idxs ->
  c ∈ cells s idxs <-> exists i, i ∈ idxs /\ s !! i = Some c.
Proof.
  induction 1 as [|i idxs Hi _ IH]; [set_solver|].
  destruct (lookup_lt_is_Some_2 s i Hi) as [d Hd].
  rewrite (cells_cons_in _ _ _ d Hd), elem_of_cons, IH.
  setoid_rewrite elem_of_cons. naive_solver.
Qed.

(** A per-position rewrite [imap f] that can only fill [c] keeps or
    lowers the count of [c], and lowers it when it changes anything. *)
Lemma count_imap_le (f : nat -> ascii -> ascii) c l :
  (forall i x, f i x = c -> x = c) -> count_char c (imap f l) <= count_char c l.
Proof.
  revert f. induction l as [|x l IH]; intros f Hf; [done|]. simpl.
  rewrite !count_char_cons. specialize (IH (f ∘ S) (fun i => Hf (S i))).
  pose proof (Hf 0 x). repeat case_decide; simpl; try lia. naive_solver.
Qed.

Lemma count_imap_lt (f : nat -> ascii -> ascii) c l :
  (forall i x, f i x = c -> x = c) -> (forall i x, x <> c -> f i x = x) ->
  imap f l <> l -> count_char c (imap f l) < count_char c l.
Proof.
  revert f. induction l as [|x l IH]; intros f Hf Hid Hne; [done|]. simpl in *.
  rewrite !count_char_cons.
  pose proof (count_imap_le (f ∘ S) c l (fun i => Hf (S i))).
  destruct (decide (f 0 x = x)) as [Heq|Hneq].
  - rewrite Heq in Hne |- *.
    assert (imap (f ∘ S) l <> l) as Htl by congruence.
    specialize (IH (f ∘ S) (fun i => Hf (S i)) (fun i => Hid (S i)) Htl).
    repeat case_decide; simpl; lia.
  - assert (x = c) as ->.
    { destruct (decide (x = c)); [done|]. by destruct Hneq; apply Hid. }
    repeat case_decide; simpl; try lia; congruence.
Qed.

Lemma concat_map_singleton {A B} (g : A -> B) (l : list A) :
  concat (map (fun i => [g i]) l) = map g l.
Proof. induction l; simpl; congruence. Qed.

Lemma filter_fmap {A B} (P : B -> Prop) `{!forall x, Decision (P x)} (f : A -> B) (l : list A) :
  filter P (f <$> l) = f <$> filter (fun x => P (f x)) l.
Proof.
  induction l as [|x l IH]; [done|].
  change (f <$> x :: l) with (f x :: (f <$> l)).
  rewrite !filter_cons, IH. by case_decide.
Qed.

Lemma filter_ext_in {A} (P Q : A -> Prop) `{!forall x, Decision (P x)} `{!forall x, Decision (Q x)}
  (l : list A) :
  (forall x, x ∈ l -> P x <-> Q x) -> filter P l = filter Q l.
Proof.
  induction l as [|x l IH]; intros Hiff; [done|]. rewrite !filter_cons.
  rewrite IH by set_solver. pose proof (Hiff x ltac:(set_solver)).
  repeat case_decide; naive_solver.
Qed.

#[export] Hint Rewrite js_includes_dot count_char_app count_char_cons : sudoku_rw.
#[export] Hint Resolve js_includes_nil js_not_strict_eq_str count_char_le : sudoku.
