(* ===== verification/Validate.v ===== *)
(** Validate.v: the format gate [SudokuSolver.prototype.validate]
    (src/controllers/sudoku-solver.js, lines 5-18), with the regular
    expression [/^[0-9.]{81}$/] it tests, and its three outcomes. *)

From S2P Require Import Prelude.

Module Validate.

(** The value [validate] returns: [true] or an object [{ error: msg }]. *)
Inductive ValidateResult :=
| VTrue
| VError (msg : string).

#[export] Instance ValidateResult_eq_dec : EqDecision ValidateResult.
Proof. solve_decision. Defined.

Definition msg_length : string := "Expected puzzle to be 81 characters long".
Definition msg_chars : string := "Invalid characters in puzzle".

(** The character class [[0-9.]]. *)
Definition is_puzzle_char (c : ascii) : bool :=
  let n := nat_of_ascii c in ((48 <=? n) && (n <=? 57)) || (n =? 46).

(** [/^[0-9.]{81}$/.test(s)]: the anchored pattern matches exactly 81
    characters of the class. *)
Definition regex_test (s : jstr) : bool :=
  (length s =? 81) && forallb is_puzzle_char s.

Definition validate (puzzleString : jstr) : ValidateResult :=
  if negb (length puzzleString =? 81) then VError msg_length
  else if negb (regex_test puzzleString) then VError msg_chars
  else VTrue.

(** [validate(s) !== true], the gate [solve] uses. *)
Definition is_valid (puzzleString : jstr) : bool :=
  bool_decide (validate puzzleString = VTrue).

(** ** Lemmas *)

Lemma is_puzzle_char_spec c :
  is_puzzle_char c = bool_decide (c ∈ js "0123456789.").
Proof. destruct c as [[] [] [] [] [] [] [] []]; reflexivity. Qed.

Lemma regex_test_spec s :
  regex_test s = true <-> length s = 81 /\ Forall (fun c => is_puzzle_char c = true) s.
Proof.
  unfold regex_test. rewrite andb_true_iff, Nat.eqb_eq, forallb_forall, List.Forall_forall.
  reflexivity.
Qed.

(** ** Properties *)

(** C7: a string whose length is not 81 is refused with the length
    message, whatever characters it holds: the length test runs first. *)
Theorem validate_wrong_length (s : jstr) :
  length s <> 81 -> validate s = VError msg_length.
Proof. intros H. unfold validate. apply Nat.eqb_neq in H. by rewrite H. Qed.

(** C8: a string of length 81 holding a character outside [[0-9.]] is
    refused with the invalid-characters message. *)
Theorem validate_invalid_chars (s : jstr) (c : ascii) :
  length s = 81 -> c ∈ s -> c ∉ js "0123456789." -> validate s = VError msg_chars.
Proof.
  intros Hl Hc Hbad. unfold validate. rewrite Hl. simpl.
  destruct (regex_test s) eqn:E; [|done].
  apply regex_test_spec in E as [_ Hall].
  rewrite Forall_forall in Hall. apply Hall in Hc.
  rewrite is_puzzle_char_spec in Hc. by apply bool_decide_eq_true in Hc.
Qed.

Lemma puzzle_chars_iff s :
  Forall (fun c => is_puzzle_char c = true) s <-> Forall (fun c => c ∈ js "0123456789.") s.
Proof.
  apply Forall_proper; [|done]. intros c.
  rewrite is_puzzle_char_spec. apply bool_decide_eq_true.
Qed.

Lemma is_valid_iff s :
  is_valid s = true <-> length s = 81 /\ Forall (fun c => c ∈ js "0123456789.") s.
Proof.
  unfold is_valid. rewrite bool_decide_eq_true.
  rewrite <- puzzle_chars_iff, <- regex_test_spec. unfold validate, regex_test.
  destruct (length s =? 81); simpl; [|split; congruence].
  destruct (forallb _ _); simpl; split; congruence.
Qed.

(** C9: [validate] returns [true] exactly on the strings of length 81
    over [[0-9.]] (the digit 0 included). *)
Theorem validate_true_iff (s : jstr) :
  validate s = VTrue <-> length s = 81 /\ Forall (fun c => c ∈ js "0123456789.") s.
Proof. rewrite <- is_valid_iff. unfold is_valid. by rewrite bool_decide_eq_true. Qed.

(** ** Witnesses: the unit tests of src/tests/1_unit-tests.js *)

Lemma validate_wrong_length_witness :
  length (js "..839.7.575.....96..1.......16.29846.9.312.7..754.....62..5.78.8...3.2...492...1") <> 81 /\
  validate (js "..839.7.575.....96..1.......16.29846.9.312.7..754.....62..5.78.8...3.2...492...1")
  = VError msg_length.
Proof. split; [vm_compute; lia|]. apply validate_wrong_length. vm_compute. lia. Defined.

Lemma validate_invalid_chars_witness :
  validate (js "1x5xx2.84..63.12.7.2..5.....9..1....8.2.3674.3.7.2..9.47...8..1..16....926914.37.")
  = VError msg_chars.
Proof.
  apply (validate_invalid_chars _ "x"%char).
  - reflexivity.
  - decide_by_eval.
  - decide_by_eval.
Defined.

End Validate.
