(* ===== verification/Placement.v ===== *)
(** Placement.v: the three placement checkers of [SudokuSolver]
    (src/controllers/sudoku-solver.js, lines 20-91) and the house strings
    they build.  [value] is any JavaScript value: [===] compares it with
    the cell as it is, [includes] converts it to a string.  The row and
    column checks answer "the value is already at the cell, or it is
    absent from the house"; the region check answers [true] on every
    input (its second branch returns [true] where a conflict should
    return [false]); the "already filled" guards [!x === "."] compare a
    boolean with a string and never fire; a number is never at the
    cell; rows are not bounds-checked. *)

From S2P Require Import Prelude.

Module Placement.

Local Open Scope js_scope.

(** [puzzleString.slice(row * 9, row * 9 + 9)] (line 21). *)
Definition rowString (puzzleString : jstr) (row : nat) : jstr :=
  js_slice puzzleString (row * 9) (row * 9 + 9).

Definition checkRowPlacement (puzzleString : jstr) (row column : nat) (value : jsval) : bool :=
  let checkedRow := rowString puzzleString row in
  if js_char (checkedRow !! column) === value then true
  else if js_includes checkedRow (js_String value) && (js_char (checkedRow !! column) !== value)
  then false
  else if js_not (js_char (checkedRow !! column)) === JStr (js ".") then false
  else true.

(** [for (let i = 0; i < 9; i++) checkedCol += puzzleString[i * 9 + column]]
    (lines 40-43). *)
Definition colString (puzzleString : jstr) (column : nat) : jstr :=
  fold_left (fun acc i => acc ++ js_index_str (puzzleString !! (i * 9 + column)))
    (seq 0 9) [].

Definition checkColPlacement (puzzleString : jstr) (row column : nat) (value : jsval) : bool :=
  let checkedCol := colString puzzleString column in
  if js_char (checkedCol !! row) === value then true
  else if js_includes checkedCol (js_String value) && (js_char (checkedCol !! row) !== value)
  then false
  else if js_not (js_char (checkedCol !! row)) === JStr (js ".") then false
  else true.

(** The two nested loops of lines 69-73 over the 3x3 box of the cell. *)
Definition regionString (puzzleString : jstr) (row column : nat) : jstr :=
  let regionRow := row / 3 in
  let regionCol := column / 3 in
  fold_left (fun acc i =>
      fold_left (fun acc j => acc ++ js_index_str (puzzleString !! (i * 9 + j)))
        (seq (regionCol * 3) 3) acc)
    (seq (regionRow * 3) 3) [].

Definition checkRegionPlacement (puzzleString : jstr) (row column : nat) (value : jsval) : bool :=
  let checkedRegion := regionString puzzleString row column in
  let cell := js_char (puzzleString !! (row * 9 + column)) in
  if cell === value then true
  else if js_includes checkedRegion (js_String value) && (cell !== value) then true
  else if js_not (js_char (checkedRegion !! ((row mod 3) * 3 + column mod 3))) === JStr (js ".")
  then false
  else true.

(** ** House strings as cells of the grid *)

Definition row_idxs (row : nat) : list nat := seq (row * 9) 9.
Definition col_idxs (column : nat) : list nat := (fun i => i * 9 + column) <$> seq 0 9.

Lemma colString_cells p column : colString p column = cells p (col_idxs column).
Proof.
  unfold colString, cells, col_idxs. rewrite !fold_left_app_concat, map_map. done.
Qed.

Lemma rowString_cells p row :
  row < 9 -> length p = 81 -> rowString p row = cells p (row_idxs row).
Proof.
  intros Hr Hl. unfold rowString, js_slice, row_idxs.
  replace (row * 9 + 9 - row * 9) with 9 by lia.
  apply list_eq. intros k. rewrite cells_lookup.
  2:{ apply Forall_seq. lia. }
  rewrite lookup_take, lookup_drop.
  destruct (decide (k < 9)).
  - by rewrite lookup_seq_lt.
  - by rewrite lookup_seq_ge by lia.
Qed.

(** The shape shared by the row and column checks: with the dead
    "already filled" branch gone, the check is "at the cell, or absent". *)
Lemma check_shape (x y value : jsval) (house : jstr) :
  (if x === value then true
   else if js_includes house (js_String value) && (x !== value) then false
   else if js_not y === JStr (js ".") then false
   else true)
  = (x === value) || negb (js_includes house (js_String value)).
Proof. rewrite js_not_strict_eq_str. by destruct (x === _), (js_includes _ _). Qed.

(** The same test on a house given by its cell indices. *)
Lemma house_test_spec p idxs k v :
  Forall (fun i => i < length p) idxs ->
  (js_char (cells p idxs !! k) === JStr [v]) || negb (js_includes (cells p idxs) [v]) = true
  <-> (idxs !! k ≫= (fun i => p !! i)) = Some v \/ (forall i, i ∈ idxs -> p !! i <> Some v).
Proof.
  intros Hr. rewrite orb_true_iff, negb_true_iff, js_includes_single_false,
    js_strict_eq_char_str, cells_lookup, cells_elem by done.
  naive_solver.
Qed.

Lemma Forall_row_idxs (p : jstr) row : row < 9 -> length p = 81 ->
  Forall (fun i => i < length p) (row_idxs row).
Proof. intros. apply Forall_seq. lia. Qed.

Lemma Forall_col_idxs (p : jstr) column : column < 9 -> length p = 81 ->
  Forall (fun i => i < length p) (col_idxs column).
Proof. intros. apply Forall_fmap, Forall_seq. intros. simpl. lia. Qed.

#[export] Hint Resolve Forall_row_idxs Forall_col_idxs : sudoku.

(** ** Properties *)

(** With the dead "already filled" branch gone, the row check is "the
    value is at the cell, or the row does not contain it". *)
Lemma checkRowPlacement_eq (p : jstr) (row column : nat) (value : jsval) :
  checkRowPlacement p row column value
  = (js_char (rowString p row !! column) === value)
    || negb (js_includes (rowString p row) (js_String value)).
Proof. apply check_shape. Qed.

Lemma checkColPlacement_eq (p : jstr) (row column : nat) (value : jsval) :
  checkColPlacement p row column value
  = (js_char (colString p column !! row) === value)
    || negb (js_includes (colString p column) (js_String value)).
Proof. apply check_shape. Qed.

Lemma checkRegionPlacement_true (p : jstr) (row column : nat) (value : jsval) :
  checkRegionPlacement p row column value = true.
Proof.
  unfold checkRegionPlacement. rewrite js_not_strict_eq_str.
  by repeat case_match.
Qed.

(** C5: on a grid of 81 cells, placing the digit [v] at [(row, column)]
    passes the row check exactly when [v] is already at that cell or
    occurs nowhere in the row. *)
Theorem checkRowPlacement_spec (p : jstr) (row column : nat) (v : ascii) :
  length p = 81 -> row < 9 -> column < 9 ->
  checkRowPlacement p row column (JStr [v]) = true
  <-> p !! (row * 9 + column) = Some v \/ (forall k, k < 9 -> p !! (row * 9 + k) <> Some v).
Proof.
  intros Hl Hr Hc. rewrite checkRowPlacement_eq, rowString_cells by done. cbn [js_String].
  rewrite house_test_spec by auto with sudoku. unfold row_idxs.
  rewrite lookup_seq_lt by done. setoid_rewrite elem_of_seq. simpl. split; intros [H|H]; auto; right.
  - intros k Hk. apply H. lia.
  - intros i Hi. replace i with (row * 9 + (i - row * 9)) by lia. apply H. lia.
Qed.

(** C6: on a grid of 81 cells, placing [v] at [(row, column)] passes the
    column check exactly when [v] is already at that cell or occurs
    nowhere in the column. *)
Theorem checkColPlacement_spec (p : jstr) (row column : nat) (v : ascii) :
  length p = 81 -> row < 9 -> column < 9 ->
  checkColPlacement p row column (JStr [v]) = true
  <-> p !! (row * 9 + column) = Some v \/ (forall k, k < 9 -> p !! (k * 9 + column) <> Some v).
Proof.
  intros Hl Hr Hc. rewrite checkColPlacement_eq, colString_cells. cbn [js_String].
  rewrite house_test_spec by auto with sudoku. unfold col_idxs.
  rewrite list_lookup_fmap, lookup_seq_lt by done.
  setoid_rewrite list_elem_of_fmap. setoid_rewrite elem_of_seq. simpl.
  split; intros [H|H]; auto; right.
  - intros k Hk. apply H. exists k. split; [done|lia].
  - intros i (k & -> & Hk). apply H. lia.
Qed.

(** A one-character string is never strictly equal to a number. *)
Lemma js_char_strict_eq_num o n : js_char o === JNum n = false.
Proof. by destruct o. Qed.

(** The row slice of a row past the grid is empty. *)
Lemma rowString_past (p : jstr) row : length p <= row * 9 -> rowString p row = [].
Proof. intros Hl. unfold rowString, js_slice. by rewrite drop_ge, take_nil. Qed.

Lemma js_includes_nil_hay s : s <> [] -> js_includes [] s = false.
Proof. by destruct s. Qed.

(** C26 (type): a number passed as [value], as the unit tests and the
    JSON bodies of the functional tests pass it, is never [===] to the
    one-character string at the cell: the row and column checks reduce
    to "the house does not contain [String(value)]", so a value already
    at the cell is reported as a conflict with itself. *)
Theorem number_value_ignores_cell (p : jstr) (row column n : nat) :
  checkRowPlacement p row column (JNum n) = negb (js_includes (rowString p row) (js_toString n)) /\
  checkColPlacement p row column (JNum n) = negb (js_includes (colString p column) (js_toString n)).
Proof. rewrite checkRowPlacement_eq, checkColPlacement_eq, !js_char_strict_eq_num. done. Qed.

(** C27 (bounds): the row check does not check its bounds: on a grid of
    81 cells, for a row index of 9 or more the row slice is empty and
    every value with a non-empty string form is accepted. *)
Theorem checkRowPlacement_row_out_of_range (p : jstr) (row column : nat) (value : jsval) :
  length p = 81 -> 9 <= row -> js_String value <> [] ->
  checkRowPlacement p row column value = true.
Proof.
  intros Hl Hr Hv. rewrite checkRowPlacement_eq, rowString_past by lia.
  rewrite js_includes_nil_hay by done. apply orb_true_r.
Qed.

(** ** Witnesses on the fixture of src/tests/1_unit-tests.js *)

Definition unit_puzzle : jstr :=
  js "1.5..2.84..63.12.7.2..5.....9..1....8.2.3674.3.7.2..9.47...8..1..16....926914.37.".

Lemma checkRowPlacement_spec_witness :
  checkRowPlacement unit_puzzle 0 1 (JStr ["5"%char]) = true
  <-> unit_puzzle !! (0 * 9 + 1) = Some "5"%char
      \/ (forall k, k < 9 -> unit_puzzle !! (0 * 9 + k) <> Some "5"%char).
Proof. apply checkRowPlacement_spec; [reflexivity | lia | lia]. Defined.

Lemma checkColPlacement_spec_witness :
  checkColPlacement unit_puzzle 0 1 (JStr ["2"%char]) = true
  <-> unit_puzzle !! (0 * 9 + 1) = Some "2"%char
      \/ (forall k, k < 9 -> unit_puzzle !! (k * 9 + 1) <> Some "2"%char).
Proof. apply checkColPlacement_spec; [reflexivity | lia | lia]. Defined.

(** Row "J" (index 9) of the unit-test grid accepts a 1, although row
    0 already holds one. *)
Lemma checkRowPlacement_row_out_of_range_witness :
  checkRowPlacement unit_puzzle 9 0 (JNum 1) = true.
Proof. apply checkRowPlacement_row_out_of_range; [reflexivity | lia | discriminate]. Defined.

(** The unit tests' verdicts, computed on the model: the row and column
    tests agree with the code; the "invalid region placement" test
    expects [false] for 6 at (0, 1), whose region holds a 6, and the code
    answers [true]. *)
Example unit_tests_row_col :
  checkRowPlacement unit_puzzle 0 1 (JNum 3) = true /\
  checkRowPlacement unit_puzzle 0 1 (JNum 5) = false /\
  checkColPlacement unit_puzzle 0 1 (JNum 3) = true /\
  checkColPlacement unit_puzzle 0 1 (JNum 2) = false.
Proof. vm_compute. repeat split. Qed.

(** The "invalid region placement" unit test: 6 occurs in the region
    of (0, 1), yet [checkRegionPlacement] accepts it. *)
Example region_unit_test_accepts :
  "6"%char ∈ regionString unit_puzzle 0 1 /\
  checkRegionPlacement unit_puzzle 0 1 (JNum 6) = true.
Proof. split; [decide_by_eval | reflexivity]. Qed.

End Placement.
