(* ===== verification/Solver.v ===== *)
(** Solver.v: [SudokuSolver.prototype.solve] (src/controllers/sudoku-solver.js,
    lines 93-181) with the instance field [actualPuzzle] (lines 2-4).
    [this.] calls go through a method table [Methods]; [isUnique] is an
    [option] because the class never defines it, so the class as written
    is [SudokuSolver_prototype] with [m_isUnique := None], and calling it
    throws a TypeError.  The recursion is [solve_fuel] with explicit fuel;
    [solve_bound] = 83 is always enough.  [solve_loop] is the loop form
    the spec (section 9) proposes for the same computation. *)

From S2P Require Import Prelude Validate Placement.

Module Solver.

Import Validate Placement.
Local Open Scope js_scope.

(** The instance state. *)
Record SudokuSolver := mkSudokuSolver { actualPuzzle : jstr }.

(** [constructor() { this.actualPuzzle = ""; }] *)
Definition new_SudokuSolver : SudokuSolver := {| actualPuzzle := js "" |}.

(** The methods [solve] reaches through [this]. *)
Record Methods := {
  m_checkRowPlacement : jstr -> nat -> nat -> jsval -> bool;
  m_checkColPlacement : jstr -> nat -> nat -> jsval -> bool;
  m_checkRegionPlacement : jstr -> nat -> nat -> jsval -> bool;
  m_isUnique : option (jstr -> bool)
}.

(** The class as written: [this.isUnique] is [undefined]. *)
Definition SudokuSolver_prototype : Methods := {|
  m_checkRowPlacement := checkRowPlacement;
  m_checkColPlacement := checkColPlacement;
  m_checkRegionPlacement := checkRegionPlacement;
  m_isUnique := None
|}.

(** An element of [tempSolution]: a pushed value or an array of candidates. *)
Inductive tempEntry :=
| TVal (v : jsval)
| TArr (l : list jstr).

(** What [solve] returns: [false] or the puzzle string. *)
Inductive SolveValue :=
| SolveFalse
| SolveString (s : jstr).

#[export] Instance SolveValue_eq_dec : EqDecision SolveValue.
Proof. solve_decision. Defined.

Definition notAFunction : js_error := TypeError "this.isUnique is not a function".
Definition undefinedLength : js_error :=
  TypeError "Cannot read properties of undefined (reading 'length')".

Fixpoint mapM_throws {A B} (f : A -> throws B) (l : list A) : throws (list B) :=
  match l with
  | [] => Ok []
  | x :: l' => let* y := f x in let* ys := mapM_throws f l' in Ok (y :: ys)
  end.

(** [puzzleString.substr(i * 9, 9)] for [i] in [0..8] (line 146). *)
Definition rowStrings (p : jstr) : list jstr := map (fun i => js_substr p (i * 9) 9) (seq 0 9).

(** The box string of lines 166-171. *)
Definition boxString (p : jstr) (reg : nat) : jstr :=
  fold_left (fun acc i =>
      fold_left (fun acc j =>
          acc ++ js_index_str (p !! ((reg / 3) * 27 + i * 9 + (reg mod 3) * 3 + j)))
        (seq 0 3) acc)
    (seq 0 3) [].

Section Solve.
Context (m : Methods).

(** The candidates of the empty cell [i]: [j] in [1..9] passing the three
    checks at [(Math.floor(i / 9), i % 9)] (lines 117-125). *)
Definition possibleVals (p : jstr) (i : nat) : list jstr :=
  filter (fun v =>
      m_checkRowPlacement m p (i / 9) (i mod 9) (JStr v)
      && m_checkColPlacement m p (i / 9) (i mod 9) (JStr v)
      && m_checkRegionPlacement m p (i / 9) (i mod 9) (JStr v) = true)
    (map js_toString (seq 1 9)).

(** The [i]-th push of the first loop (lines 113-127). *)
Definition tempEntryAt (p : jstr) (i : nat) : tempEntry :=
  if js_char (p !! i) !== JStr (js ".") then TVal (js_char (p !! i))
  else TArr (possibleVals p i).

Definition tempSolution (p : jstr) : list tempEntry := map (tempEntryAt p) (seq 0 81).

(** The second loop (lines 131-137):
    [tempSolution[k].length === 1 ? tempSolution[k][0] : "."]. *)
Definition resolveEntry (e : tempEntry) : throws jstr :=
  match e with
  | TVal JUndefined => Throw undefinedLength
  | TVal (JBool _) | TVal (JNum _) => Ok (js ".")
  | TVal (JStr s) => Ok (if length s =? 1 then js_index_str (s !! 0) else js ".")
  | TArr l => Ok (if length l =? 1 then from_option id (js "") (l !! 0) else js ".")
  end.

(** [tempSolution.join("")] (line 139). *)
Definition newPuzzle (p : jstr) : throws jstr :=
  let* parts := mapM_throws resolveEntry (tempSolution p) in Ok (concat parts).

(** [for (...) if (!this.isUnique(h)) return false;] over the houses [hs]. *)
Fixpoint allUnique (hs : list jstr) : throws bool :=
  match hs with
  | [] => Ok true
  | h :: hs' =>
      match m_isUnique m with
      | None => Throw notAFunction
      | Some f => if f h then allUnique hs' else Ok false
      end
  end.

(** The branch for a grid without '.' (lines 141-180): rows, columns,
    then the region loop, whose bound [reg < 0] runs it zero times. *)
Definition checkSolved (p : jstr) : throws SolveValue :=
  let* r := allUnique (rowStrings p) in
  if negb r then Ok SolveFalse else
  let* c := allUnique (map (colString p) (seq 0 9)) in
  if negb c then Ok SolveFalse else
  let* b := allUnique (map (boxString p) (seq 0 0)) in
  if negb b then Ok SolveFalse else
  Ok (SolveString p).

(** [solve(puzzleString)]; [None] when the fuel runs out. *)
Fixpoint solve_fuel (fuel : nat) (self : SudokuSolver) (p : jstr)
  : option (SudokuSolver * throws SolveValue) :=
  match fuel with
  | 0 => None
  | S fuel' =>
      if negb (is_valid p) then Some (self, Ok SolveFalse)
      else if bool_decide (p = actualPuzzle self) then Some (self, Ok SolveFalse)
      else if js_includes p (js ".") then
        let self' := {| actualPuzzle := p |} in
        match newPuzzle p with
        | Throw e => Some (self', Throw e)
        | Ok np => solve_fuel fuel' self' np
        end
      else Some (self, checkSolved p)
  end.

End Solve.

(** ** The propagation pass as a map over the cells *)

Definition digits19 : jstr := js "123456789".

Lemma toString_digits : map js_toString (seq 1 9) = (fun d => [d]) <$> digits19.
Proof. reflexivity. Qed.

Section Pass.
Context (m : Methods).

(** The new content of cell [i], holding [c], after one pass. *)
Definition cellResult (p : jstr) (i : nat) (c : ascii) : ascii :=
  if decide (c = dot) then
    match possibleVals m p i with [[d]] => d | _ => dot end
  else c.

Definition pass (p : jstr) : jstr := imap (cellResult p) p.

Lemma possibleVals_digits p i v :
  v ∈ possibleVals m p i -> exists d, v = [d] /\ d ∈ digits19.
Proof.
  unfold possibleVals. rewrite list_elem_of_filter, toString_digits, list_elem_of_fmap.
  naive_solver.
Qed.

Lemma resolve_tempEntryAt p i c :
  p !! i = Some c -> resolveEntry (tempEntryAt m p i) = Ok [cellResult p i c].
Proof.
  intros H. unfold tempEntryAt, cellResult. rewrite H. cbn [js_char js_strict_eq].
  destruct (decide (c = dot)) as [->|Hc].
  - rewrite bool_decide_eq_true_2 by done. simpl.
    destruct (possibleVals m p i) as [|v [|w l]] eqn:E; [done| |by destruct v as [|? []]].
    destruct (possibleVals_digits p i v) as (d & -> & _); [rewrite E; set_solver|done].
  - rewrite bool_decide_eq_false_2 by (intros [= Heq]; apply Hc, Heq). done.
Qed.

Lemma mapM_tempEntries p idxs :
  Forall (fun i => i < length p) idxs ->
  mapM_throws resolveEntry (map (tempEntryAt m p) idxs)
  = Ok (map (fun i => [from_option (cellResult p i) dot (p !! i)]) idxs).
Proof.
  induction 1 as [|i idxs Hi _ IH]; [done|].
  destruct (lookup_lt_is_Some_2 p i Hi) as [c Hc]. simpl.
  rewrite (resolve_tempEntryAt _ _ c Hc), IH, Hc. done.
Qed.

(** The two loops and [join("")] compute [pass]. *)
Lemma newPuzzle_pass p : length p = 81 -> newPuzzle m p = Ok (pass p).
Proof.
  intros Hl. unfold newPuzzle, tempSolution.
  rewrite mapM_tempEntries by (apply Forall_seq; lia). cbn [throws_bind]. f_equal.
  rewrite concat_map_singleton. apply list_eq. intros k. unfold pass.
  rewrite list_lookup_imap. change (map ?f ?l) with (f <$> l). rewrite list_lookup_fmap.
  destruct (decide (k < 81)).
  - rewrite lookup_seq_lt by done. simpl. destruct (lookup_lt_is_Some_2 p k) as [c ->]; [lia|done].
  - rewrite lookup_seq_ge, lookup_ge_None_2 by lia. done.
Qed.

Lemma length_pass p : length (pass p) = length p.
Proof. apply length_imap. Qed.

Lemma pass_lookup p i : pass p !! i = cellResult p i <$> p !! i.
Proof. apply list_lookup_imap. Qed.

Lemma cellResult_filled p i c : c <> dot -> cellResult p i c = c.
Proof. intros H. unfold cellResult. by rewrite decide_False. Qed.

Lemma cellResult_cases p i c :
  cellResult p i c = c \/ (c = dot /\ cellResult p i c ∈ digits19).
Proof.
  unfold cellResult. destruct (decide (c = dot)) as [->|]; [|by left].
  destruct (possibleVals m p i) as [|[|d [|e v]] [|w l]] eqn:E; try by left.
  right. split; [done|]. destruct (possibleVals_digits p i [d]) as (d' & [= ->] & ?); [|done].
  rewrite E. set_solver.
Qed.

Lemma cellResult_dot p i c : cellResult p i c = dot -> c = dot.
Proof.
  destruct (cellResult_cases p i c) as [->|[? _]]; done.
Qed.

Lemma pass_keeps_filled p i c : p !! i = Some c -> c <> dot -> pass p !! i = Some c.
Proof.
  intros H Hc. rewrite pass_lookup, H. cbn [fmap option_fmap option_map].
  by rewrite cellResult_filled.
Qed.

Lemma pass_valid p : is_valid p = true -> is_valid (pass p) = true.
Proof.
  rewrite !is_valid_iff, length_pass. intros [Hl Hall]. split; [done|].
  apply Forall_lookup. intros i c. rewrite pass_lookup.
  intros (c0 & Hc0 & ->)%fmap_Some.
  destruct (cellResult_cases p i c0) as [->|[_ Hd]].
  - exact (Forall_lookup_1 _ _ _ _ Hall Hc0).
  - revert Hd. unfold digits19. set_solver.
Qed.

Lemma pass_lowers_dots p : pass p <> p -> count_char dot (pass p) < count_char dot p.
Proof.
  apply count_imap_lt; [apply cellResult_dot|intros; by apply cellResult_filled].
Qed.

(** C11: a pass either changes nothing or strictly lowers the number of
    empty cells, and never raises it: the count of '.' is the measure
    that makes [solve] terminate. *)
Theorem pass_progress (p : jstr) :
  (pass p = p \/ count_char dot (pass p) < count_char dot p) /\
  count_char dot (pass p) <= count_char dot p.
Proof.
  split; [|apply count_imap_le, cellResult_dot].
  destruct (decide (pass p = p)) as [|Hne]; [by left|right]. by apply pass_lowers_dots.
Qed.

(** C10 (refinement): on a grid of 81 cells, the two loops of [solve] and
    [join("")] never throw and build a grid of 81 cells that keeps every
    filled cell and turns a blank into its candidate when it has exactly
    one, and leaves it blank otherwise. *)
Theorem newPuzzle_spec (p : jstr) :
  length p = 81 ->
  exists q, newPuzzle m p = Ok q /\ length q = 81 /\
  forall i c, p !! i = Some c ->
    q !! i = Some (if decide (c = dot)
                   then match possibleVals m p i with [[d]] => d | _ => dot end
                   else c).
Proof.
  intros Hl. exists (pass p). split_and!; [by apply newPuzzle_pass|by rewrite length_pass|].
  intros i c Hi. by rewrite pass_lookup, Hi.
Qed.

End Pass.

Definition solve_bound : nat := 83.

Definition solve (m : Methods) (self : SudokuSolver) (p : jstr)
  : option (SudokuSolver * throws SolveValue) :=
  solve_fuel m solve_bound self p.

(** Spec, section 9: the recursion as an explicit loop with a bounded
    iteration count and a non-progress flag: pass until no cell changes
    or the grid is complete, then run the final check. *)
Fixpoint solve_loop (m : Methods) (n : nat) (p : jstr) : throws SolveValue :=
  match n with
  | 0 => Ok SolveFalse
  | S n' =>
      if bool_decide (dot ∈ p) then
        let q := pass m p in
        if bool_decide (q = p) then Ok SolveFalse else solve_loop m n' q
      else checkSolved m p
  end.

(** ** Termination and fuel *)

Section Fuel.
Context (m : Methods).

Lemma js_includes_dot_lit p : js_includes p (js ".") = bool_decide (dot ∈ p).
Proof. apply js_includes_dot. Qed.

(** One call of [solve] on a valid grid. *)
Lemma solve_fuel_valid fuel self p :
  is_valid p = true ->
  solve_fuel m (S fuel) self p =
  if bool_decide (p = actualPuzzle self) then Some (self, Ok SolveFalse)
  else if bool_decide (dot ∈ p) then solve_fuel m fuel {| actualPuzzle := p |} (pass m p)
  else Some (self, checkSolved m p).
Proof.
  intros Hv. cbn [solve_fuel]. rewrite Hv, js_includes_dot_lit. simpl.
  destruct (bool_decide (p = _)); [done|]. destruct (bool_decide (dot ∈ p)); [|done].
  apply is_valid_iff in Hv as [Hl _]. by rewrite newPuzzle_pass.
Qed.

Lemma solve_fuel_invalid fuel self p :
  is_valid p = false -> solve_fuel m (S fuel) self p = Some (self, Ok SolveFalse).
Proof. intros Hv. cbn [solve_fuel]. by rewrite Hv. Qed.

Lemma count_dot_valid p : is_valid p = true -> count_char dot p <= 81.
Proof. intros [Hl _]%is_valid_iff. rewrite <- Hl. apply count_char_le. Qed.

Lemma solve_fuel_some fuel self p :
  is_valid p = true -> count_char dot p + 2 <= fuel -> is_Some (solve_fuel m fuel self p).
Proof.
  revert self p. induction fuel as [|fuel IH]; intros self p Hv Hf; [lia|].
  rewrite solve_fuel_valid by done.
  case_bool_decide; [done|]. case_bool_decide; [|done].
  destruct (decide (pass m p = p)) as [Heq|Hne].
  - destruct fuel as [|fuel]; [lia|]. rewrite Heq, solve_fuel_valid by done.
    by rewrite bool_decide_eq_true_2.
  - pose proof (pass_lowers_dots m p Hne). apply IH; [by apply pass_valid | lia].
Qed.

(** Fuel beyond a successful run does not change the result. *)
Lemma solve_fuel_mono fuel1 fuel2 self p r :
  solve_fuel m fuel1 self p = Some r -> fuel1 <= fuel2 -> solve_fuel m fuel2 self p = Some r.
Proof.
  revert fuel2 self p. induction fuel1 as [|fuel1 IH]; intros fuel2 self p Hrun Hle; [done|].
  destruct fuel2 as [|fuel2]; [lia|]. revert Hrun. cbn [solve_fuel].
  repeat case_match; try done. intros Hrun. apply IH; [done|lia].
Qed.

Lemma solve_is_some self p : is_Some (solve m self p).
Proof.
  unfold solve, solve_bound. destruct (is_valid p) eqn:Hv.
  - apply solve_fuel_some; [done|]. pose proof (count_dot_valid p Hv). lia.
  - by rewrite solve_fuel_invalid.
Qed.

(** C1: [solve] terminates: with [solve_bound] = 83 units of fuel the
    recursion returns on every grid and in every state, and more fuel
    gives the same answer, so [solve] is the recursion of the source and
    not an approximation of it. *)
Theorem solve_terminates (self : SudokuSolver) (p : jstr) :
  is_Some (solve m self p) /\
  forall fuel, solve_bound <= fuel -> solve_fuel m fuel self p = solve m self p.
Proof.
  destruct (solve_is_some self p) as [r Hr].
  split; [by eexists|]. intros fuel Hle. rewrite Hr. by eapply solve_fuel_mono.
Qed.

(** C23: a valid grid with [d] blanks costs at most [d + 2] calls of
    [solve]: [d] productive passes, then one call on a complete grid or
    one refused by the guard. *)
Theorem solve_call_bound (self : SudokuSolver) (p : jstr) :
  is_valid p = true -> solve_fuel m (count_char dot p + 2) self p = solve m self p.
Proof.
  intros Hv. destruct (solve_fuel_some (count_char dot p + 2) self p Hv (le_n _)) as [r Hr].
  rewrite Hr. symmetry. eapply solve_fuel_mono; [exact Hr|].
  pose proof (count_dot_valid p Hv). unfold solve_bound. lia.
Qed.

End Fuel.

(** C22: [solve] drops the format error: on a string [validate] refuses,
    whatever the message, it returns [false] and leaves the state as it
    was. *)
Theorem solve_format_error_false (m : Methods) (self : SudokuSolver) (p : jstr) (msg : string) :
  validate p = VError msg -> solve m self p = Some (self, Ok SolveFalse).
Proof.
  intros Hv. apply solve_fuel_invalid. unfold is_valid. rewrite Hv. by apply bool_decide_eq_false_2.
Qed.

(** ** The final uniqueness check *)

(** A grid the solver may return: well formed, complete, and with every
    row and every column a permutation of 1..9. *)
Definition solved_grid (s : jstr) : Prop :=
  is_valid s = true /\ (dot ∉ s) /\
  (forall h, h ∈ rowStrings s -> h ≡ₚ digits19) /\
  (forall c, c < 9 -> colString s c ≡ₚ digits19).

Lemma colStrings_elem p c : c < 9 -> colString p c ∈ map (colString p) (seq 0 9).
Proof.
  intros Hc. change (map ?f ?l) with (f <$> l). apply list_elem_of_fmap_2, elem_of_seq. lia.
Qed.



Section Unique.
Context (m : Methods) (f : jstr -> bool).
Hypothesis Hf : m_isUnique m = Some f.

Lemma allUnique_Ok_true hs : allUnique m hs = Ok true -> forall h, h ∈ hs -> f h = true.
Proof.
  induction hs as [|h hs IH]; simpl; rewrite ?Hf; [set_solver|].
  destruct (f h) eqn:E; [|done]. intros H h' [->|?]%elem_of_cons; auto.
Qed.

Lemma allUnique_all hs : (forall h, h ∈ hs -> f h = true) -> allUnique m hs = Ok true.
Proof.
  induction hs as [|h hs IH]; intros Hall; simpl; [done|]. rewrite Hf, Hall by set_solver.
  apply IH. set_solver.
Qed.

Lemma checkSolved_string p s :
  checkSolved m p = Ok (SolveString s) ->
  s = p /\ (forall h, h ∈ rowStrings p -> f h = true) /\ (forall c, c < 9 -> f (colString p c) = true).
Proof.
  unfold checkSolved.
  destruct (allUnique m (rowStrings p)) as [[]|] eqn:Er; cbn [throws_bind negb]; try done.
  destruct (allUnique m (map (colString p) (seq 0 9))) as [[]|] eqn:Ec;
    cbn [throws_bind negb seq map allUnique]; try done.
  intros [= <-]. split; [done|]. split; [by apply allUnique_Ok_true|].
  intros c Hc. eapply allUnique_Ok_true; [exact Ec|by apply colStrings_elem].
Qed.

Lemma checkSolved_all p :
  (forall h, h ∈ rowStrings p -> f h = true) -> (forall c, c < 9 -> f (colString p c) = true) ->
  checkSolved m p = Ok (SolveString p).
Proof.
  intros Hr Hc. unfold checkSolved. rewrite allUnique_all by done. cbn [throws_bind negb].
  rewrite allUnique_all; [done|]. change (map ?g ?l) with (g <$> l).
  intros h (c & -> & Hc')%list_elem_of_fmap. apply Hc. apply elem_of_seq in Hc'. lia.
Qed.

End Unique.

Lemma checkSolved_undefined m p : m_isUnique m = None -> checkSolved m p = Throw notAFunction.
Proof. intros Hn. unfold checkSolved. simpl. by rewrite Hn. Qed.

Lemma allUnique_forallb m f hs : m_isUnique m = Some f -> allUnique m hs = Ok (forallb f hs).
Proof. intros Hf. induction hs as [|h hs IH]; [done|]. simpl. rewrite Hf. by destruct (f h). Qed.

(** C20: the final check on every branch.  With any [isUnique] method
    [f], the branch for a complete grid returns the grid exactly when [f]
    accepts its nine rows and its nine columns, and [false] otherwise: it
    never throws, and [f] is never asked about a region, since the loop
    [for (let reg = 0; reg < 0; reg++)] (line 165) runs zero times. *)
Theorem checkSolved_spec (m : Methods) (f : jstr -> bool) (p : jstr) :
  m_isUnique m = Some f ->
  checkSolved m p =
  Ok (if forallb f (rowStrings p) && forallb f (map (colString p) (seq 0 9))
      then SolveString p else SolveFalse).
Proof.
  intros Hf. unfold checkSolved. rewrite !(allUnique_forallb m f) by done.
  by destruct (forallb f (rowStrings p)), (forallb f (map (colString p) (seq 0 9))).
Qed.

(** C2: soundness.  When [isUnique] accepts only permutations of 1..9,
    a grid returned by [solve] is complete, has every row and column a
    permutation of 1..9, and keeps every filled cell of the input. *)
Theorem solve_sound (m : Methods) (f : jstr -> bool) :
  m_isUnique m = Some f -> (forall h, f h = true -> h ≡ₚ digits19) ->
  forall fuel self p self' s,
  solve_fuel m fuel self p = Some (self', Ok (SolveString s)) ->
  solved_grid s /\ (forall i c, p !! i = Some c -> c <> dot -> s !! i = Some c).
Proof.
  intros Hf Hspec fuel. induction fuel as [|fuel IH]; intros self p self' s; [done|].
  destruct (is_valid p) eqn:Hv; [|by rewrite solve_fuel_invalid].
  rewrite solve_fuel_valid by done.
  case_bool_decide; [done|]. case_bool_decide as Hdot.
  - intros (Hs & Hext)%IH. split; [done|].
    intros i c Hi Hc. apply Hext; [by apply pass_keeps_filled|done].
  - intros [= _ Hc]. destruct (checkSolved_string m f Hf p s Hc) as (-> & Hr & Hcol).
    split; [|naive_solver]. split_and!; auto.
Qed.

Lemma checkSolved_returns_input m p s : checkSolved m p = Ok (SolveString s) -> s = p.
Proof.
  unfold checkSolved.
  repeat (destruct (allUnique _ _) as [[]|]; cbn [throws_bind negb]; try discriminate).
  congruence.
Qed.


(** Without an [isUnique] method, [solve] ends in [false] or in the
    TypeError of the call. *)
Lemma solve_fuel_undefined_isUnique m fuel self p self' r :
  m_isUnique m = None -> solve_fuel m fuel self p = Some (self', r) ->
  r = Ok SolveFalse \/ r = Throw notAFunction.
Proof.
  intros Hn. revert self p. induction fuel as [|fuel IH]; intros self p; [done|].
  destruct (is_valid p) eqn:Hv; [|rewrite solve_fuel_invalid by done; naive_solver].
  rewrite solve_fuel_valid by done.
  case_bool_decide; [naive_solver|]. case_bool_decide; [apply IH|].
  rewrite checkSolved_undefined by done. naive_solver.
Qed.

(** C3: the class as written never returns a grid: [this.isUnique] is
    undefined, so every run ends in [false] or in the TypeError
    "this.isUnique is not a function". *)
Theorem prototype_never_returns_grid (fuel : nat) (self : SudokuSolver) (p : jstr)
  (self' : SudokuSolver) (r : throws SolveValue) :
  solve_fuel SudokuSolver_prototype fuel self p = Some (self', r) ->
  r = Ok SolveFalse \/ r = Throw notAFunction.
Proof. by apply solve_fuel_undefined_isUnique. Qed.

(** ** The outcome of the class as written *)

Lemma iter_fixed {A} (f : A -> A) (x : A) n : f x = x -> Nat.iter n f x = x.
Proof. intros Hx. induction n as [|n IH]; [done|]. by rewrite Nat.iter_succ, IH. Qed.

(** C28 (liveness): propagation always reaches a fixed point: for every
    method table and grid, some number of passes no larger than the count
    of '.' yields a grid that the next pass leaves unchanged (the point
    where [solve]'s guard or its final check takes over). *)
Theorem pass_reaches_fixpoint (m : Methods) (p : jstr) :
  exists n, n <= count_char dot p /\ pass m (Nat.iter n (pass m) p) = Nat.iter n (pass m) p.
Proof.
  remember (count_char dot p) as k eqn:Hk. revert p Hk.
  induction k as [k IH] using lt_wf_ind; intros p Hk.
  destruct (decide (pass m p = p)) as [Heq|Hne]; [exists 0; split; [lia|done]|].
  pose proof (pass_lowers_dots m p Hne) as Hlt.
  destruct (IH (count_char dot (pass m p)) ltac:(lia) (pass m p) eq_refl) as (n & Hn & Hfix).
  exists (S n). rewrite Nat.iter_succ_r. split; [lia|done].
Qed.

Lemma pass_complete m q : dot ∉ q -> pass m q = q.
Proof.
  intros Hq. apply list_eq. intros i. rewrite pass_lookup.
  destruct (q !! i) as [c|] eqn:E; [|done]. simpl. rewrite cellResult_filled; [done|].
  intros ->. apply Hq. by eapply list_elem_of_lookup_2.
Qed.


Lemma solve_fuel_no_isUnique m n fuel self q :
  m_isUnique m = None -> is_valid q = true -> q <> actualPuzzle self ->
  count_char dot q <= n -> n + 2 <= fuel ->
  snd <$> solve_fuel m fuel self q =
  Some (if bool_decide (dot ∈ Nat.iter n (pass m) q) then Ok SolveFalse else Throw notAFunction).
Proof.
  intros Hn. revert fuel self q.
  induction n as [|n IH]; intros fuel self q Hv Hne Hd Hf;
    (destruct fuel as [|fuel]; [lia|]); rewrite solve_fuel_valid, (bool_decide_eq_false_2 (q = _)) by done.
  - assert (dot ∉ q) by (apply count_char_0; lia).
    rewrite !bool_decide_eq_false_2 by done. simpl. by rewrite checkSolved_undefined.
  - case_bool_decide as Hdot.
    + destruct (decide (pass m q = q)) as [Heq|Hne'].
      * destruct fuel as [|fuel]; [lia|]. rewrite Heq, solve_fuel_valid by done.
        rewrite bool_decide_eq_true_2 by done. simpl.
        by rewrite iter_fixed, bool_decide_eq_true_2 by (rewrite ?Heq; done).
      * pose proof (pass_lowers_dots m q Hne'). rewrite Nat.iter_succ_r.
        apply IH; [by apply pass_valid | simpl; congruence | lia | lia].
    + rewrite (iter_fixed (pass m) q (S n)) by (by apply pass_complete).
      rewrite bool_decide_eq_false_2 by done. simpl. by rewrite checkSolved_undefined.
Qed.

(** C25: with [isUnique] undefined, as in the class, [solve] on a valid
    grid other than the remembered one returns [false] exactly when
    iterating the pass (81 times suffice) leaves a blank, and throws the
    TypeError exactly when it fills the grid. *)
Theorem solve_outcome_without_isUnique (m : Methods) (self : SudokuSolver) (p : jstr) :
  m_isUnique m = None -> is_valid p = true -> p <> actualPuzzle self ->
  snd <$> solve m self p =
  Some (if bool_decide (dot ∈ Nat.iter 81 (pass m) p) then Ok SolveFalse else Throw notAFunction).
Proof.
  intros Hn Hv Hne. apply solve_fuel_no_isUnique; [done|done|done| |].
  - by apply count_dot_valid.
  - unfold solve_bound. lia.
Qed.

Section Loop.
Context (m : Methods).

Lemma solve_fuel_loop n fuel self q :
  is_valid q = true -> q <> actualPuzzle self -> count_char dot q < n -> count_char dot q + 2 <= fuel ->
  snd <$> solve_fuel m fuel self q = Some (solve_loop m n q).
Proof.
  revert fuel self q. induction n as [|n IH]; intros fuel self q Hv Hne Hn Hf; [lia|].
  destruct fuel as [|fuel]; [lia|]. rewrite solve_fuel_valid, (bool_decide_eq_false_2 (q = _)) by done.
  cbn [solve_loop]. case_bool_decide as Hdot; [|done].
  assert (count_char dot q <> 0) by (intros ?%count_char_0; contradiction).
  case_bool_decide as Hfix.
  - destruct fuel as [|fuel]; [lia|]. rewrite Hfix, solve_fuel_valid by done.
    by rewrite bool_decide_eq_true_2.
  - pose proof (pass_lowers_dots m q Hfix).
    apply IH; [by apply pass_valid | simpl; congruence | lia | lia].
Qed.

End Loop.

(** C18 (refinement): section 9 of the spec says the recursion is
    functionally equivalent to an explicit loop with a bounded iteration
    count and a non-progress flag.  For every method table, on a valid
    grid other than the remembered one, [solve] returns what [solve_loop]
    with 82 iterations returns (81 passes and the final check); the
    remembered puzzle matters only to the first call. *)
Theorem solve_refines_loop (m : Methods) (self : SudokuSolver) (p : jstr) :
  is_valid p = true -> p <> actualPuzzle self ->
  snd <$> solve m self p = Some (solve_loop m 82 p).
Proof.
  intros Hv Hne. pose proof (count_dot_valid p Hv).
  apply solve_fuel_loop; [done|done|lia|unfold solve_bound; lia].
Qed.

(** ** The instance state across calls *)

(** C12: the remembered puzzle matters only to the first comparison: two
    instances whose [actualPuzzle] both differ from [p] return the same
    value on [p], and end in the same state when [p] is a valid grid with
    a blank. *)
Theorem solve_history_independent (m : Methods) (fuel : nat) (s1 s2 : SudokuSolver) (p : jstr) :
  p <> actualPuzzle s1 -> p <> actualPuzzle s2 ->
  snd <$> solve_fuel m fuel s1 p = snd <$> solve_fuel m fuel s2 p /\
  (is_valid p = true -> dot ∈ p -> solve_fuel m fuel s1 p = solve_fuel m fuel s2 p).
Proof.
  intros H1 H2. destruct fuel as [|fuel]; [done|].
  destruct (is_valid p) eqn:Hv; [|rewrite !solve_fuel_invalid by done; split; [done|congruence]].
  rewrite !solve_fuel_valid by done.
  rewrite (bool_decide_eq_false_2 (p = actualPuzzle s1)), (bool_decide_eq_false_2 (p = actualPuzzle s2))
    by done.
  case_bool_decide; (split; [cbn; reflexivity|]); [done|]. intros _ ?. contradiction.
Qed.

Lemma count_dot_pass_le m q : count_char dot (pass m q) <= count_char dot q.
Proof.
  destruct (decide (pass m q = q)) as [Heq|Hne]; [rewrite Heq; lia|].
  pose proof (pass_lowers_dots m q Hne). lia.
Qed.

(** A run leaves the instance as it found it, or remembers a grid with no
    more blanks than its input. *)
Lemma solve_fuel_remembered m fuel self q s' r :
  solve_fuel m fuel self q = Some (s', r) ->
  s' = self \/ count_char dot (actualPuzzle s') <= count_char dot q.
Proof.
  revert self q. induction fuel as [|fuel IH]; intros self q; [done|].
  destruct (is_valid q) eqn:Hv; [|rewrite solve_fuel_invalid by done; intros [= <- _]; by left].
  rewrite solve_fuel_valid by done.
  case_bool_decide; [intros [= <- _]; by left|].
  case_bool_decide; [|intros [= <- _]; by left].
  intros [-> | Hle]%IH; right; [simpl; lia|]. pose proof (count_dot_pass_le m q). lia.
Qed.

(** C21: resubmission.  After [solve] on a valid grid [p] with a blank,
    other than the remembered one, the instance remembers [p] itself
    exactly when the first pass leaves [p] unchanged or fills it
    completely; then submitting [p] again is refused with [false].
    Otherwise the instance remembers a later grid and the second
    submission gets the same answer as the first. *)
Theorem solve_resubmission (m : Methods) (self : SudokuSolver) (p : jstr)
  (s1 : SudokuSolver) (r1 : throws SolveValue) :
  is_valid p = true -> dot ∈ p -> p <> actualPuzzle self ->
  solve m self p = Some (s1, r1) ->
  (actualPuzzle s1 = p <-> pass m p = p \/ dot ∉ pass m p) /\
  snd <$> solve m s1 p = Some (if bool_decide (actualPuzzle s1 = p) then Ok SolveFalse else r1).
Proof.
  intros Hv Hd Hne. unfold solve, solve_bound.
  rewrite solve_fuel_valid, (bool_decide_eq_false_2 (p = _)), (bool_decide_eq_true_2 (dot ∈ p)) by done.
  intros Hrun. split.
  - destruct (decide (pass m p = p)) as [Heq|Hpne].
    + rewrite Heq, solve_fuel_valid, bool_decide_eq_true_2 in Hrun by done.
      injection Hrun as <- _. simpl. tauto.
    + pose proof (pass_lowers_dots m p Hpne). pose proof (count_dot_pass_le m (pass m p)).
      rewrite solve_fuel_valid in Hrun by (by apply pass_valid).
      rewrite (bool_decide_eq_false_2 (pass m p = _)) in Hrun by done.
      case_bool_decide as Hd'.
      * apply solve_fuel_remembered in Hrun as [-> | Hle]; simpl; [|split; [intros <-; lia|]]; naive_solver.
      * injection Hrun as <- _. simpl. tauto.
  - rewrite solve_fuel_valid, (bool_decide_eq_true_2 (dot ∈ p)) by done.
    destruct (decide (actualPuzzle s1 = p)) as [E|E].
    + by rewrite !bool_decide_eq_true_2.
    + rewrite !bool_decide_eq_false_2 by congruence. by rewrite Hrun.
Qed.

(** The remembered puzzle is the initial [""] or a valid grid with a blank:
    [solve] records [p] only on the branch where [p] contains ['.']. *)
Definition solver_inv (self : SudokuSolver) : Prop :=
  actualPuzzle self = js "" \/ (is_valid (actualPuzzle self) = true /\ dot ∈ actualPuzzle self).

(** The engine's life: each request is a [solve] call on the shared
    instance (the placement checks take no instance state). *)
Inductive engine_step (m : Methods) : SudokuSolver -> SudokuSolver -> Prop :=
| step_solve self p self' r :
    solve m self p = Some (self', r) -> engine_step m self self'.

Definition reachable (m : Methods) (self : SudokuSolver) : Prop :=
  rtc (engine_step m) new_SudokuSolver self.

Lemma solve_fuel_inv m fuel self p self' r :
  solver_inv self -> solve_fuel m fuel self p = Some (self', r) -> solver_inv self'.
Proof.
  revert self p. induction fuel as [|fuel IH]; intros self p Hinv; [done|].
  destruct (is_valid p) eqn:Hv; [rewrite solve_fuel_valid by done|rewrite solve_fuel_invalid by done; congruence].
  case_bool_decide; [congruence|]. case_bool_decide as Hdot; [|congruence].
  apply IH. right. done.
Qed.

Lemma solved_grid_check s :
  is_valid s = true -> dot ∉ s -> Forall (fun h => h ≡ₚ digits19) (rowStrings s) ->
  Forall (fun c => colString s c ≡ₚ digits19) (seq 0 9) -> solved_grid s.
Proof.
  intros Hv Hd Hr Hc. split_and!; [done|done| |].
  - by apply Forall_forall.
  - intros c Hc'. eapply Forall_forall in Hc; [exact Hc|]. apply elem_of_seq. lia.
Qed.

(** C13: every state an engine reaches from [new SudokuSolver()] by any
    sequence of [solve] calls satisfies [solver_inv]. *)
Theorem reachable_inv (m : Methods) (self : SudokuSolver) :
  reachable m self -> solver_inv self.
Proof.
  unfold reachable. intros Hreach.
  assert (solver_inv new_SudokuSolver) as Hinit by (by left). revert Hinit.
  induction Hreach as [|s1 s2 s3 Hstep _ IH]; [done|].
  intros Hinv. apply IH. destruct Hstep as [s p s' r Hrun]. by eapply solve_fuel_inv.
Qed.

Lemma solved_grid_not_actual self s :
  solver_inv self -> solved_grid s -> s <> actualPuzzle self.
Proof.
  intros [Hinv|[_ Hinv]] (Hv & Hdot & _); intros ->.
  - rewrite Hinv in Hv. discriminate.
  - contradiction.
Qed.

(** C14: idempotence.  With an [isUnique] that accepts the permutations
    of 1..9, solving an already solved grid in any state satisfying
    [solver_inv] (every reachable state, by C13) returns the same grid and
    leaves the state unchanged. *)
Theorem solve_solved_grid (m : Methods) (f : jstr -> bool) :
  m_isUnique m = Some f -> (forall h, h ≡ₚ digits19 -> f h = true) ->
  forall self s, solver_inv self -> solved_grid s -> solve m self s = Some (self, Ok (SolveString s)).
Proof.
  intros Hf Hcomplete self s Hinv Hs.
  pose proof (solved_grid_not_actual self s Hinv Hs) as Hne.
  destruct Hs as (Hv & Hdot & Hrows & Hcols).
  unfold solve, solve_bound. rewrite solve_fuel_valid by done.
  rewrite bool_decide_eq_false_2, bool_decide_eq_false_2 by done.
  erewrite checkSolved_all; [done|done| |]; auto.
Qed.

End Solver.
