(* ===== verification/Spec.v ===== *)
(** Spec.v: what the spec says the engine should do, stated as abstract
    definitions next to the code's: the candidate set of an empty cell
    (spec section 3), the corrected region check (section 4.2) and the
    uniqueness test of a house (section 4.3).  The refinement theorem
    computes the code's candidate list exactly: it is the spec's set
    without the region constraint.  [intended_methods] plugs the spec's
    region check and uniqueness test into the code's [solve]; with it,
    a pass of the code is the spec's single-candidate pass [spec_pass].
    [solution_of] is a solution in the sense of section 3; propagation
    keeps every solution, so a solvable puzzle is never answered with a
    wrong grid. *)

From S2P Require Import Prelude Validate Placement Solver.

Module Spec.

Import Validate Placement Solver.
Local Open Scope js_scope.

(** The houses of cell [i] as index lists. *)
Definition row_of (i : nat) : list nat := row_idxs (i / 9).
Definition col_of (i : nat) : list nat := col_idxs (i mod 9).
Definition region_of (i : nat) : list nat :=
  let r := (i / 9) / 3 * 3 in let c := (i mod 9) / 3 * 3 in
  (fun k => (r + k / 3) * 9 + (c + k mod 3)) <$> seq 0 9.

(** Spec, section 3: the digits absent from the three houses of the cell. *)
Definition spec_candidates (p : jstr) (i : nat) : jstr :=
  filter (fun d => (d ∉ cells p (row_of i)) /\ (d ∉ cells p (col_of i)) /\ (d ∉ cells p (region_of i)))
    digits19.

(** The candidate set the code computes: the region constraint is gone. *)
Definition rowcol_candidates (p : jstr) (i : nat) : jstr :=
  filter (fun d => (d ∉ cells p (row_of i)) /\ (d ∉ cells p (col_of i))) digits19.

(** Spec, section 4.2: the region check with the corrected semantics. *)
Definition checkRegionPlacement_intended (p : jstr) (row column : nat) (value : jsval) : bool :=
  let checkedRegion := regionString p row column in
  (js_char (p !! (row * 9 + column)) === value) || negb (js_includes checkedRegion (js_String value)).

(** Spec, section 4.3: a house is valid when it is a permutation of 1..9. *)
Definition isUnique_intended (h : jstr) : bool := bool_decide (h ≡ₚ digits19).

Definition intended_methods : Methods := {|
  m_checkRowPlacement := checkRowPlacement;
  m_checkColPlacement := checkColPlacement;
  m_checkRegionPlacement := checkRegionPlacement_intended;
  m_isUnique := Some isUnique_intended
|}.

(** The class with only [isUnique] supplied. *)
Definition prototype_with_isUnique : Methods := {|
  m_checkRowPlacement := checkRowPlacement;
  m_checkColPlacement := checkColPlacement;
  m_checkRegionPlacement := checkRegionPlacement;
  m_isUnique := Some isUnique_intended
|}.

(** The class with only the region check corrected. *)
Definition prototype_with_region_fix : Methods := {|
  m_checkRowPlacement := checkRowPlacement;
  m_checkColPlacement := checkColPlacement;
  m_checkRegionPlacement := checkRegionPlacement_intended;
  m_isUnique := None
|}.

(** Spec, section 4.3 step 5: one propagation pass on the current
    snapshot: a blank with exactly one candidate takes it, every other
    cell is kept. *)
Definition spec_pass (p : jstr) : jstr :=
  imap (fun i c => if decide (c = dot) then
                     match spec_candidates p i with [d] => d | _ => dot end
                   else c) p.

(** Spec, section 3: a house of a solved grid holds no digit twice. *)
Definition house_distinct (s : jstr) (idxs : list nat) : Prop :=
  NoDup ((fun i => s !! i) <$> idxs).

(** [s] is a solution of the puzzle [p]: 81 digits 1-9, every row,
    column and region of every cell without repeats, and every filled
    cell of [p] kept. *)
Definition solution_of (s p : jstr) : Prop :=
  length s = 81 /\ Forall (fun d => d ∈ digits19) s /\
  Forall (fun i => house_distinct s (row_of i) /\ house_distinct s (col_of i) /\
                   house_distinct s (region_of i)) (seq 0 81) /\
  Forall2 (fun c d => c = dot \/ c = d) p s.

#[export] Instance solution_of_dec s p : Decision (solution_of s p).
Proof. unfold solution_of, house_distinct. apply _. Defined.

(** C4: the class's region check accepts a digit that the region already
    holds at another cell, where the spec's check (section 4.2) rejects
    it: the second branch of [checkRegionPlacement] returns [true] on a
    conflict. *)
Theorem checkRegionPlacement_accepts_conflicts (p : jstr) (row column : nat) (v : ascii) :
  v ∈ regionString p row column -> p !! (row * 9 + column) <> Some v ->
  checkRegionPlacement p row column (JStr [v]) = true /\
  checkRegionPlacement_intended p row column (JStr [v]) = false.
Proof.
  intros Hin Hcell. split; [apply checkRegionPlacement_true|].
  unfold checkRegionPlacement_intended. apply orb_false_iff. split.
  - destruct (p !! _) eqn:E; simpl; [|done]. apply bool_decide_eq_false_2. naive_solver.
  - apply negb_false_iff, js_includes_single, Hin.
Qed.

Lemma checkRegionPlacement_accepts_conflicts_witness :
  checkRegionPlacement unit_puzzle 0 1 (JStr ["6"%char]) = true /\
  checkRegionPlacement_intended unit_puzzle 0 1 (JStr ["6"%char]) = false.
Proof. apply checkRegionPlacement_accepts_conflicts; decide_by_eval. Defined.

(** ** The code's candidate sets *)

Lemma digit_not_dot d : d ∈ digits19 -> d <> dot.
Proof. intros Hd ->. revert Hd. decide_by_eval. Qed.

(** The row or column test of the code at a blank cell is "absent". *)
Lemma house_test_at_blank p idxs k i d :
  Forall (fun j => j < length p) idxs -> idxs !! k = Some i -> p !! i = Some dot -> d <> dot ->
  (js_char (cells p idxs !! k) === JStr [d]) || negb (js_includes (cells p idxs) [d]) = true
  <-> d ∉ cells p idxs.
Proof.
  intros Hr Hk Hi Hd. rewrite cells_lookup, Hk by done. simpl. rewrite Hi. simpl.
  rewrite bool_decide_eq_false_2 by (intros [=]; congruence). simpl.
  rewrite negb_true_iff. apply js_includes_single_false.
Qed.

Lemma row_of_lookup i : i < 81 -> row_idxs (i / 9) !! (i mod 9) = Some i.
Proof.
  intros Hi. unfold row_idxs. rewrite lookup_seq_lt by (apply Nat.mod_upper_bound; lia).
  f_equal. pose proof (Nat.div_mod_eq i 9). lia.
Qed.

Lemma col_of_lookup i : i < 81 -> col_idxs (i mod 9) !! (i / 9) = Some i.
Proof.
  intros Hi. unfold col_idxs. rewrite list_lookup_fmap, lookup_seq_lt by (apply Nat.Div0.div_lt_upper_bound; lia).
  cbn -[Nat.div Nat.modulo]. f_equal. pose proof (Nat.div_mod_eq i 9). lia.
Qed.

Lemma possibleVals_prototype_cands p i :
  length p = 81 -> i < 81 -> p !! i = Some dot ->
  possibleVals SudokuSolver_prototype p i = (fun d => [d]) <$> rowcol_candidates p i.
Proof.
  intros Hl Hi Hdot. unfold possibleVals, rowcol_candidates.
  rewrite toString_digits, filter_fmap. f_equal. apply filter_ext_in. intros d Hd.
  cbn [m_checkRowPlacement m_checkColPlacement m_checkRegionPlacement SudokuSolver_prototype].
  rewrite checkRegionPlacement_true, andb_true_r, andb_true_iff.
  rewrite checkRowPlacement_eq, checkColPlacement_eq, colString_cells. cbn [js_String].
  assert (i / 9 < 9) by (apply Nat.Div0.div_lt_upper_bound; lia).
  rewrite rowString_cells by done.
  unfold row_of, col_of.
  rewrite (house_test_at_blank p _ _ i d), (house_test_at_blank p _ _ i d);
    auto using row_of_lookup, col_of_lookup, digit_not_dot, Forall_row_idxs, Forall_col_idxs,
      Nat.mod_upper_bound.
Qed.

(** C15 (refinement): at a blank cell, the class's candidate list is
    exactly the digits absent from the cell's row and column, in
    increasing order; its region plays no part. *)
Theorem possibleVals_prototype (p : jstr) (i : nat) :
  length p = 81 -> i < 81 -> p !! i = Some dot ->
  possibleVals SudokuSolver_prototype p i = (fun d => [d]) <$> rowcol_candidates p i.
Proof. apply possibleVals_prototype_cands. Qed.

(** The region loops of [checkRegionPlacement] visit the cells of
    [region_of], in order. *)
Lemma regionString_cells p i : regionString p (i / 9) (i mod 9) = cells p (region_of i).
Proof.
  unfold regionString, cells, region_of. cbn [seq fold_left fmap list_fmap].
  repeat f_equal; simpl; lia.
Qed.

Lemma Forall_region_of (p : jstr) i : length p = 81 -> i < 81 ->
  Forall (fun j => j < length p) (region_of i).
Proof.
  intros Hl Hi. unfold region_of. apply Forall_fmap, Forall_seq. intros k Hk.
  unfold compose. rewrite Hl.
  assert (k / 3 < 3) by (apply Nat.Div0.div_lt_upper_bound; lia).
  assert (k mod 3 < 3) by (apply Nat.mod_upper_bound; lia).
  assert (i / 9 / 3 < 3) by (do 2 apply Nat.Div0.div_lt_upper_bound; lia).
  assert (i mod 9 / 3 < 3).
  { apply Nat.Div0.div_lt_upper_bound. pose proof (Nat.mod_upper_bound i 9). lia. }
  nia.
Qed.

Lemma possibleVals_intended_cands p i :
  length p = 81 -> i < 81 -> p !! i = Some dot ->
  possibleVals intended_methods p i = (fun d => [d]) <$> spec_candidates p i.
Proof.
  intros Hl Hi Hdot. unfold possibleVals, spec_candidates.
  rewrite toString_digits, filter_fmap. f_equal. apply filter_ext_in. intros d Hd.
  cbn [m_checkRowPlacement m_checkColPlacement m_checkRegionPlacement intended_methods].
  rewrite !andb_true_iff, checkRowPlacement_eq, checkColPlacement_eq, colString_cells.
  assert (i / 9 < 9) by (apply Nat.Div0.div_lt_upper_bound; lia).
  rewrite rowString_cells by done. unfold checkRegionPlacement_intended.
  rewrite regionString_cells. cbn [js_String]. unfold row_of, col_of.
  replace (i / 9 * 9 + i mod 9) with i by (pose proof (Nat.div_mod_eq i 9); lia).
  rewrite Hdot. cbn [js_char js_strict_eq].
  rewrite bool_decide_eq_false_2 by (intros [= Heq]; apply (digit_not_dot d Hd); congruence).
  rewrite orb_false_l, negb_true_iff, js_includes_single_false.
  rewrite (house_test_at_blank p _ _ i d), (house_test_at_blank p _ _ i d);
    auto using row_of_lookup, col_of_lookup, digit_not_dot, Forall_row_idxs, Forall_col_idxs,
      Nat.mod_upper_bound.
  tauto.
Qed.


(** ** The pass and the loop of the spec *)

Lemma singleton_match (l : jstr) :
  match (fun d => [d]) <$> l with [[d]] => d | _ => dot end = match l with [d] => d | _ => dot end.
Proof. by destruct l as [|x [|y l]]. Qed.

(** C17 (refinement): with the spec's region check, one pass of the
    code's two loops is the spec's single-candidate pass on the current
    snapshot (section 4.3 step 5), on every grid of 81 cells. *)
Theorem pass_intended_spec (p : jstr) :
  length p = 81 -> pass intended_methods p = spec_pass p.
Proof.
  intros Hl. apply list_eq. intros i. unfold pass, spec_pass. rewrite !list_lookup_imap.
  destruct (p !! i) as [c|] eqn:Hi; [|done]. cbn [fmap option_fmap option_map].
  f_equal. unfold cellResult. destruct (decide (c = dot)) as [->|]; [|done].
  assert (i < 81) by (rewrite <- Hl; by eapply lookup_lt_Some).
  rewrite possibleVals_intended_cands by done.
  apply singleton_match.
Qed.

Lemma pass_intended_spec_witness : pass intended_methods unit_puzzle = spec_pass unit_puzzle.
Proof. apply pass_intended_spec. reflexivity. Defined.

(** ** Propagation never contradicts a solution *)

Lemma house_distinct_ne s idxs i j c :
  house_distinct s idxs -> i ∈ idxs -> j ∈ idxs -> i <> j -> s !! i = Some c -> s !! j <> Some c.
Proof.
  intros Hnd (ki & Hki)%list_elem_of_lookup (kj & Hkj)%list_elem_of_lookup Hne Hi Hj.
  assert (ki = kj) as ->; [|congruence].
  eapply (NoDup_lookup _ _ _ (Some c) Hnd); rewrite list_lookup_fmap; [rewrite Hki|rewrite Hkj]; simpl; congruence.
Qed.

Lemma cells_in_houses : Forall (fun i => i ∈ row_of i /\ i ∈ col_of i /\ i ∈ region_of i) (seq 0 81).
Proof. decide_by_eval. Qed.

Section Solution.
Context (s p : jstr) (Hsol : solution_of s p).

Lemma solution_length_p : length p = 81.
Proof. pose proof Hsol as (Hl & _ & _ & Hag). by rewrite (Forall2_length _ _ _ Hag). Qed.

Lemma solution_agrees i c : p !! i = Some c -> c <> dot -> s !! i = Some c.
Proof.
  pose proof Hsol as (_ & _ & _ & Hag). intros Hi Hc.
  destruct (Forall2_lookup_l _ _ _ _ _ Hag Hi) as (d & Hd & [-> | ->]); done.
Qed.

(** The digit a solution puts at a blank is absent from every house of
    the blank in the puzzle. *)
Lemma solution_not_in_house i d idxs :
  i ∈ idxs -> Forall (fun j => j < length p) idxs -> house_distinct s idxs ->
  p !! i = Some dot -> s !! i = Some d -> d ∉ cells p idxs.
Proof.
  intros Hin Hr Hnd Hp Hs. rewrite cells_elem by done. intros (j & Hj & Hpj).
  pose proof Hsol as (_ & Hdig & _).
  assert (d <> dot) as Hd by (apply digit_not_dot; exact (Forall_lookup_1 _ _ _ _ Hdig Hs)).
  destruct (decide (i = j)) as [<-|Hne]; [congruence|].
  exact (house_distinct_ne s idxs i j d Hnd Hin Hj Hne Hs (solution_agrees j d Hpj Hd)).
Qed.

Lemma solution_in_candidates i d :
  p !! i = Some dot -> s !! i = Some d -> d ∈ spec_candidates p i /\ d ∈ rowcol_candidates p i.
Proof.
  intros Hp Hs. pose proof solution_length_p as Hl.
  assert (Hi : i < 81) by (rewrite <- Hl; by eapply lookup_lt_Some).
  pose proof Hsol as (_ & Hdig & Hhouses & _).
  destruct (proj1 (Forall_seq _ _ _) Hhouses i ltac:(lia)) as (Hr & Hc & Hg).
  destruct (proj1 (Forall_seq _ _ _) cells_in_houses i ltac:(lia)) as (Ir & Ic & Ig).
  assert (i / 9 < 9) by (apply Nat.Div0.div_lt_upper_bound; lia).
  pose proof (Forall_lookup_1 _ _ _ _ Hdig Hs) as Hd.
  unfold spec_candidates, rowcol_candidates. rewrite !list_elem_of_filter.
  split_and!; try done; eapply solution_not_in_house; eauto using Forall_region_of;
    unfold row_of, col_of; auto using Forall_row_idxs, Forall_col_idxs, Nat.mod_upper_bound.
Qed.

(** A pass whose candidate lists keep the solution's digit fills every
    blank with that digit or leaves it blank. *)
Lemma pass_solution m :
  (forall i d, p !! i = Some dot -> s !! i = Some d ->
     exists C, possibleVals m p i = (fun e => [e]) <$> C /\ d ∈ C) ->
  solution_of s (pass m p).
Proof.
  intros Hcands. pose proof Hsol as (Hl & Hdig & Hh & Hag). split_and!; [done|done|done|].
  apply Forall2_same_length_lookup_2; [by rewrite length_pass; exact (Forall2_length _ _ _ Hag)|].
  intros i c d. rewrite pass_lookup. intros (c0 & Hc0 & ->)%fmap_Some Hd.
  unfold cellResult. destruct (decide (c0 = dot)) as [->|Hne]; [|right; pose proof (solution_agrees i c0 Hc0 Hne); congruence].
  destruct (Hcands i d Hc0 Hd) as (C & -> & HC).
  destruct C as [|e [|e' C]]; cbn; [by left|right|by left]. set_solver.
Qed.

End Solution.

Lemma pass_solution_prototype s p : solution_of s p -> solution_of s (pass SudokuSolver_prototype p).
Proof.
  intros Hsol. apply pass_solution; [done|]. intros i d Hp Hs.
  exists (rowcol_candidates p i). split; [|by apply (solution_in_candidates s p Hsol i d)].
  apply possibleVals_prototype_cands; [by apply (solution_length_p s)| |done].
  rewrite <- (solution_length_p s p Hsol). by eapply lookup_lt_Some.
Qed.

Lemma pass_solution_intended s p : solution_of s p -> solution_of s (pass intended_methods p).
Proof.
  intros Hsol. apply pass_solution; [done|]. intros i d Hp Hs.
  exists (spec_candidates p i). split; [|by apply (solution_in_candidates s p Hsol i d)].
  apply possibleVals_intended_cands; [by apply (solution_length_p s)| |done].
  rewrite <- (solution_length_p s p Hsol). by eapply lookup_lt_Some.
Qed.

(** C16 (invariant): single-candidate propagation never contradicts a
    solution: if [s] solves [p] (in the sense of spec section 3), then
    [s] also solves the grid one pass produces, with the class's
    candidates (row and column only) as with the spec's. *)
Theorem pass_keeps_solution (s p : jstr) :
  solution_of s p ->
  solution_of s (pass SudokuSolver_prototype p) /\ solution_of s (pass intended_methods p).
Proof. intros Hsol. split; [by apply pass_solution_prototype|by apply pass_solution_intended]. Qed.

(** A complete grid that a solution extends is that solution. *)
Lemma solution_complete s p : solution_of s p -> dot ∉ p -> p = s.
Proof.
  intros Hsol Hd. apply list_eq. intros i.
  destruct (p !! i) as [c|] eqn:Hi.
  - symmetry. apply (solution_agrees s p Hsol i c Hi). intros ->. apply Hd. by eapply list_elem_of_lookup_2.
  - symmetry. apply lookup_ge_None. pose proof Hsol as (Hl & _).
    rewrite Hl, <- (solution_length_p s p); [|done]. by apply lookup_ge_None.
Qed.

Lemma solve_fuel_solution m s :
  (forall p, solution_of s p -> solution_of s (pass m p)) ->
  forall fuel self p self' q, solution_of s p ->
  solve_fuel m fuel self p = Some (self', Ok (SolveString q)) -> q = s.
Proof.
  intros Hpass fuel. induction fuel as [|fuel IH]; intros self p self' q Hsol; [done|].
  destruct (is_valid p) eqn:Hv; [|by rewrite solve_fuel_invalid].
  rewrite solve_fuel_valid by done.
  case_bool_decide; [done|]. case_bool_decide as Hdot; [by apply IH, Hpass|].
  intros [= _ ->%checkSolved_returns_input]. by apply solution_complete.
Qed.

(** C24 (safety): on a puzzle that has a solution [s], the engine with the
    spec's methods, and the class with only [isUnique] supplied, either
    answer [false] or return exactly [s], in every state and with any
    fuel: a solvable puzzle is never answered with a wrong grid, even
    though the final check ignores the regions. *)
Theorem solve_solvable_sound (s p : jstr) :
  solution_of s p ->
  (forall fuel self self' q,
     solve_fuel intended_methods fuel self p = Some (self', Ok (SolveString q)) -> q = s) /\
  (forall fuel self self' q,
     solve_fuel prototype_with_isUnique fuel self p = Some (self', Ok (SolveString q)) -> q = s).
Proof.
  intros Hsol. split; intros fuel self self' q; apply solve_fuel_solution; try done.
  - apply pass_solution_intended.
  - apply pass_solution_prototype.
Qed.

End Spec.
