(* ===== verification/Log.v ===== *)
(** Log.v: the console output of [solve] (src/controllers/sudoku-solver.js,
    lines 96, 102, 142, 147, 159 and 174).  [solve_log_fuel] is
    [solve_fuel] with every [console.log] it executes: a call returns the
    lines it printed, in order, beside the instance state and the
    outcome.  The output changes nothing else: the logged solver projects
    exactly onto [solve_fuel], and each run prints one line saying how it
    ended, possibly followed by the house that failed. *)

From S2P Require Import Prelude Validate Placement Solver.

Module Logging.

Import Validate Placement Solver.
Local Open Scope js_scope.

(** The lines a computation prints, then its result or exception. *)
Definition logged (A : Type) : Type := list jstr * throws A.

Definition log_ret {A} (a : A) : logged A := ([], Ok a).

Definition log_bind {A B} (c : logged A) (k : A -> logged B) : logged B :=
  match c with
  | (l, Ok a) => let '(l', r) := k a in (l ++ l', r)
  | (l, Throw e) => (l, Throw e)
  end.

Local Notation "'let+' x := c 'in' k" := (log_bind c (fun x => k))
  (at level 10, x name, c at level 100, k at level 200).

(** [console.log(s)] prints [s]; [console.log(a, b)] prints [a], a space
    and [b]. *)
Definition console_log (s : jstr) : logged unit := ([s], Ok tt).

Definition msg_not_valid : jstr := js "puzzle not valid".
Definition msg_cant_solve : jstr := js "can't be solved".
Definition msg_solved (p : jstr) : jstr := js "puzzle solved >>" ++ js " " ++ p.
Definition msg_row : jstr := js "row not valid".
Definition msg_col : jstr := js "column not valid".
Definition msg_region : jstr := js "region not valid".

(** One uniqueness loop, printing [msg] before [return false]. *)
Fixpoint allUnique_log (m : Methods) (msg : jstr) (hs : list jstr) : logged bool :=
  match hs with
  | [] => log_ret true
  | h :: hs' =>
      match m_isUnique m with
      | None => ([], Throw notAFunction)
      | Some f => if f h then allUnique_log m msg hs' else let+ _ := console_log msg in log_ret false
      end
  end.

(** Lines 141-180 with their output. *)
Definition checkSolved_log (m : Methods) (p : jstr) : logged SolveValue :=
  let+ _ := console_log (msg_solved p) in
  let+ r := allUnique_log m msg_row (rowStrings p) in
  if negb r then log_ret SolveFalse else
  let+ c := allUnique_log m msg_col (map (colString p) (seq 0 9)) in
  if negb c then log_ret SolveFalse else
  let+ b := allUnique_log m msg_region (map (boxString p) (seq 0 0)) in
  if negb b then log_ret SolveFalse else
  log_ret (SolveString p).

(** [solve(puzzleString)] with its output; the lines of the recursive
    call follow those of the caller, which prints none before recursing. *)
Fixpoint solve_log_fuel (m : Methods) (fuel : nat) (self : SudokuSolver) (p : jstr)
  : option (SudokuSolver * logged SolveValue) :=
  match fuel with
  | 0 => None
  | S fuel' =>
      if negb (is_valid p) then Some (self, let+ _ := console_log msg_not_valid in log_ret SolveFalse)
      else if bool_decide (p = actualPuzzle self) then
        Some (self, let+ _ := console_log msg_cant_solve in log_ret SolveFalse)
      else if js_includes p (js ".") then
        let self' := {| actualPuzzle := p |} in
        match newPuzzle m p with
        | Throw e => Some (self', ([], Throw e))
        | Ok np => solve_log_fuel m fuel' self' np
        end
      else Some (self, checkSolved_log m p)
  end.

(** The outcome without the output. *)
Definition forget_log {A} (x : SudokuSolver * logged A) : SudokuSolver * throws A := (x.1, x.2.2).

(** ** Lemmas *)

Lemma allUnique_log_result m msg hs : (allUnique_log m msg hs).2 = allUnique m hs.
Proof.
  induction hs as [|h hs IH]; [done|]. cbn [allUnique_log allUnique].
  destruct (m_isUnique m) as [f|]; [|done]. by destruct (f h).
Qed.

(** A uniqueness loop prints nothing, or [msg] alone when it answers
    [false]. *)
Lemma allUnique_log_lines m msg hs :
  ((allUnique_log m msg hs).1 = [] /\ (allUnique_log m msg hs).2 <> Ok false) \/
  (allUnique_log m msg hs = ([msg], Ok false)).
Proof.
  induction hs as [|h hs IH]; [left; done|]. cbn [allUnique_log].
  destruct (m_isUnique m) as [f|]; [|left; done]. by destruct (f h); [|right].
Qed.

Lemma log_bind_result {A B} (c : logged A) (k : A -> logged B) :
  (log_bind c k).2 = throws_bind c.2 (fun a => (k a).2).
Proof. destruct c as [l [a|e]]; cbn; [by destruct (k a)|done]. Qed.

Lemma checkSolved_log_result m p : (checkSolved_log m p).2 = checkSolved m p.
Proof.
  unfold checkSolved_log, checkSolved. rewrite !log_bind_result, !allUnique_log_result.
  cbn [console_log snd throws_bind].
  destruct (allUnique m (rowStrings p)) as [[]|]; cbn [throws_bind negb]; [|done..].
  rewrite log_bind_result, allUnique_log_result.
  destruct (allUnique m (map (colString p) (seq 0 9))) as [[]|]; cbn [throws_bind negb]; [|done..].
  rewrite log_bind_result, allUnique_log_result. by destruct (allUnique m _) as [[]|].
Qed.

(** The final check prints the solved line, then at most the row or the
    column line; the region loop never runs, so its line never appears. *)
Lemma checkSolved_log_lines m p :
  (checkSolved_log m p).1 = [msg_solved p] \/ (checkSolved_log m p).1 = [msg_solved p; msg_row] \/
  (checkSolved_log m p).1 = [msg_solved p; msg_col].
Proof.
  unfold checkSolved_log. cbn [console_log log_bind].
  pose proof (allUnique_log_lines m msg_row (rowStrings p)) as H1.
  destruct (allUnique_log m msg_row (rowStrings p)) as [l1 r1]. cbn [fst snd] in H1.
  destruct H1 as [[-> H1] | [= -> ->]]; [|cbn; auto].
  destruct r1 as [[]|e]; [|done|cbn; auto]. cbn [negb log_bind].
  pose proof (allUnique_log_lines m msg_col (map (colString p) (seq 0 9))) as H2.
  destruct (allUnique_log m msg_col _) as [l2 r2]. cbn [fst snd] in H2.
  destruct H2 as [[-> H2] | [= -> ->]]; [|cbn; auto].
  destruct r2 as [[]|e]; [|done|cbn; auto]. cbn. auto.
Qed.

(** C19 (equivalence): the console output of [solve] changes nothing:
    dropping the printed lines from the logged solver gives exactly
    [solve_fuel], for every method table, fuel, state and input.  And
    every run that returns prints exactly one line saying how it ended:
    "puzzle not valid", "can't be solved", or "puzzle solved >> q" for
    the complete well-formed grid [q] it checks, the last followed at
    most by "row not valid" or "column not valid"; "region not valid"
    is never printed. *)
Theorem solve_log_spec (m : Methods) (fuel : nat) (self : SudokuSolver) (p : jstr) :
  forget_log <$> solve_log_fuel m fuel self p = solve_fuel m fuel self p /\
  (forall s l r, solve_log_fuel m fuel self p = Some (s, (l, r)) ->
     l = [msg_not_valid] \/ l = [msg_cant_solve] \/
     exists q, is_valid q = true /\ (dot ∉ q) /\
       (l = [msg_solved q] \/ l = [msg_solved q; msg_row] \/ l = [msg_solved q; msg_col])).
Proof.
  revert self p. induction fuel as [|fuel IH]; intros self p; [split; [done|discriminate]|].
  cbn [solve_log_fuel solve_fuel log_bind console_log log_ret app].
  destruct (is_valid p) eqn:Hv; cbn [negb]; [|split; [done|intros ??? [=]; subst; auto]].
  case_bool_decide; [split; [done|intros ??? [=]; subst; auto]|].
  destruct (js_includes p (js ".")) eqn:Hd.
  - apply is_valid_iff in Hv as [Hl _]. rewrite newPuzzle_pass by done. apply IH.
  - split; [by rewrite <- checkSolved_log_result|].
    intros s l r [= _ Hc]. right; right. exists p. replace l with (checkSolved_log m p).1 by by rewrite Hc.
    rewrite js_includes_dot_lit in Hd. apply bool_decide_eq_false_1 in Hd.
    split_and!; [done|done|apply checkSolved_log_lines].
Qed.

End Logging.
