(* ===== verification/Adapter.v ===== *)
(** Adapter.v: the HTTP collaborator's aggregate placement check, which
    is not under src/ and is modelled from the spec (section 4.2): the
    three checkers of a method table are run independently and every
    rejecting house is reported, in the order row, column, region.  With
    the class's region check, the region is never reported.  The file
    also evaluates the spec's end-to-end scenarios (section 8) on the
    model and holds the witnesses of the solver's theorems. *)

From S2P Require Import Prelude Validate Placement Solver Log Spec.

Module Adapter.

Import Validate Placement Solver Logging Spec.
Local Open Scope js_scope.

(** The response of a placement check: valid, or the conflicting houses. *)
Inductive CheckResult :=
| CheckValid
| CheckConflict (conflict : list string).

#[export] Instance CheckResult_eq_dec : EqDecision CheckResult.
Proof. solve_decision. Defined.

(** The route runs the three checks of the method table [m] and lists
    every house that rejects. *)
Definition checkPlacement (m : Methods) (p : jstr) (row column : nat) (value : jsval) : CheckResult :=
  let conflict :=
    (if m_checkRowPlacement m p row column value then [] else ["row"%string]) ++
    (if m_checkColPlacement m p row column value then [] else ["column"%string]) ++
    (if m_checkRegionPlacement m p row column value then [] else ["region"%string]) in
  match conflict with [] => CheckValid | _ => CheckConflict conflict end.

(** ** The spec's scenarios on the model *)

Definition fixture : jstr :=
  js "5..91372.3...8.5.9.9.25..8.68.47.23...95..46.7.4.....5.2.......4..8916..85.72...3".

(** Spec scenarios 3-5 (the functional tests at "A3"): 8 is valid,
    as specified; 3 is reported with one conflict where the spec and the
    functional test expect two, and 9 with two where they expect three,
    because the region is never reported. *)
Example spec_placement_scenarios :
  checkPlacement SudokuSolver_prototype fixture 0 2 (JNum 8) = CheckValid /\
  checkPlacement SudokuSolver_prototype fixture 0 2 (JNum 3) = CheckConflict ["row"%string] /\
  checkPlacement SudokuSolver_prototype fixture 0 2 (JNum 9) = CheckConflict ["row"%string; "column"%string].
Proof. vm_compute. repeat split. Qed.

Definition scenario1 : jstr :=
  js ".7.89.....5....3.4.2..4..1.5689..472...6.....1.7.5.63873.1.2.8.6..47.1..2.9.387.6".
Definition scenario1_solution : jstr :=
  js "473891265851726394926345817568913472342687951197254638734162589685479123219538746".

(** Spec scenario 1 (the unit test "Valid puzzle strings pass the
    solver") on the class as written: with candidates filtered by row and
    column only, propagation stalls with blanks left, the guard refuses
    the unchanged grid, and [solve] returns [false]. *)
Example scenario1_class_returns_false :
  snd <$> solve SudokuSolver_prototype new_SudokuSolver scenario1 = Some (Ok SolveFalse).
Proof. vm_compute. reflexivity. Qed.

(** With the spec's region check and uniqueness test in place of the
    class's, the same code returns the expected solution; with only the
    region check corrected it throws the TypeError of the missing
    [isUnique]. *)
Example scenario1_intended_solves :
  snd <$> solve intended_methods new_SudokuSolver scenario1 = Some (Ok (SolveString scenario1_solution)) /\
  snd <$> solve prototype_with_region_fix new_SudokuSolver scenario1 = Some (Throw notAFunction).
Proof. split; vm_compute; reflexivity. Qed.

(** A Latin square whose regions repeat digits. *)
Definition latin_square : jstr :=
  js "123456789234567891345678912456789123567891234678912345789123456891234567912345678".

(** ** Witnesses of the solver's theorems on the spec's scenario 1 *)

Lemma isUnique_intended_sound h : isUnique_intended h = true -> h ≡ₚ digits19.
Proof. apply bool_decide_eq_true_1. Qed.

Lemma isUnique_intended_complete h : h ≡ₚ digits19 -> isUnique_intended h = true.
Proof. apply bool_decide_eq_true_2. Qed.

Lemma solve_sound_witness :
  exists self',
    solve_fuel intended_methods solve_bound new_SudokuSolver scenario1
    = Some (self', Ok (SolveString scenario1_solution)) /\
    solved_grid scenario1_solution /\
    (forall i c, scenario1 !! i = Some c -> c <> dot -> scenario1_solution !! i = Some c).
Proof.
  eexists. split; [vm_compute; reflexivity|].
  eapply (solve_sound intended_methods isUnique_intended eq_refl isUnique_intended_sound
            solve_bound new_SudokuSolver scenario1).
  vm_compute. reflexivity.
Defined.

(** Re-solving the expected solution with the class as written throws. *)
Lemma prototype_never_returns_grid_witness :
  solve_fuel SudokuSolver_prototype solve_bound new_SudokuSolver scenario1_solution
  = Some (new_SudokuSolver, Throw notAFunction) /\
  (Throw notAFunction = Ok SolveFalse \/ @Throw SolveValue notAFunction = Throw notAFunction).
Proof.
  assert (Hrun : solve_fuel SudokuSolver_prototype solve_bound new_SudokuSolver scenario1_solution
                 = Some (new_SudokuSolver, Throw notAFunction)) by (vm_compute; reflexivity).
  split; [exact Hrun|]. exact (prototype_never_returns_grid _ _ _ _ _ Hrun).
Defined.

Lemma solve_history_independent_witness :
  snd <$> solve_fuel intended_methods solve_bound new_SudokuSolver scenario1
  = snd <$> solve_fuel intended_methods solve_bound {| actualPuzzle := latin_square |} scenario1 /\
  (is_valid scenario1 = true -> dot ∈ scenario1 ->
   solve_fuel intended_methods solve_bound new_SudokuSolver scenario1
   = solve_fuel intended_methods solve_bound {| actualPuzzle := latin_square |} scenario1).
Proof. apply solve_history_independent; decide_by_eval. Defined.

Lemma reachable_inv_witness :
  exists self1, reachable intended_methods self1 /\ solver_inv self1.
Proof.
  eexists. split.
  - eapply rtc_l; [|apply rtc_refl]. eapply (step_solve _ _ scenario1). vm_compute. reflexivity.
  - apply (reachable_inv intended_methods). eapply rtc_l; [|apply rtc_refl].
    eapply (step_solve _ _ scenario1). vm_compute. reflexivity.
Defined.

Lemma solve_solved_grid_witness :
  solve intended_methods new_SudokuSolver scenario1_solution
  = Some (new_SudokuSolver, Ok (SolveString scenario1_solution)).
Proof.
  apply (solve_solved_grid intended_methods isUnique_intended eq_refl isUnique_intended_complete).
  - by left.
  - apply solved_grid_check; [reflexivity|decide_by_eval|decide_by_eval|decide_by_eval].
Defined.

Lemma possibleVals_prototype_witness :
  possibleVals SudokuSolver_prototype scenario1 0 = (fun d => [d]) <$> rowcol_candidates scenario1 0.
Proof. apply possibleVals_prototype; [reflexivity | lia | reflexivity]. Defined.

Lemma newPuzzle_spec_witness :
  exists q, newPuzzle SudokuSolver_prototype scenario1 = Ok q /\ length q = 81 /\
  forall i c, scenario1 !! i = Some c ->
    q !! i = Some (if decide (c = dot)
                   then match possibleVals SudokuSolver_prototype scenario1 i with [[d]] => d | _ => dot end
                   else c).
Proof. apply newPuzzle_spec. reflexivity. Defined.

Lemma solve_terminates_witness :
  is_Some (solve SudokuSolver_prototype new_SudokuSolver scenario1) /\
  forall fuel, solve_bound <= fuel ->
    solve_fuel SudokuSolver_prototype fuel new_SudokuSolver scenario1
    = solve SudokuSolver_prototype new_SudokuSolver scenario1.
Proof. apply solve_terminates. Defined.

Lemma solve_format_error_false_witness :
  solve SudokuSolver_prototype new_SudokuSolver
    (js ".7.8x.....5c...3.4.2..4..1.5689..472...6.....1.7.5.63873.1.2.8.6..47.1..2.9.387.6")
  = Some (new_SudokuSolver, Ok SolveFalse).
Proof. apply (solve_format_error_false _ _ _ msg_chars). vm_compute. reflexivity. Defined.

Lemma solve_call_bound_witness :
  solve_fuel SudokuSolver_prototype (count_char dot scenario1 + 2) new_SudokuSolver scenario1
  = solve SudokuSolver_prototype new_SudokuSolver scenario1.
Proof. apply solve_call_bound. reflexivity. Defined.

Lemma solve_outcome_without_isUnique_witness :
  snd <$> solve SudokuSolver_prototype new_SudokuSolver scenario1
  = Some (if bool_decide (dot ∈ Nat.iter 81 (pass SudokuSolver_prototype) scenario1)
          then Ok SolveFalse else Throw notAFunction).
Proof. apply solve_outcome_without_isUnique; [reflexivity | reflexivity | decide_by_eval]. Defined.

(** The final check accepts a Latin square whose first region repeats
    digits: only its rows and columns reach [isUnique]. *)
Lemma checkSolved_spec_witness :
  ~ (boxString latin_square 0 ≡ₚ digits19) /\
  checkSolved intended_methods latin_square
  = Ok (if forallb isUnique_intended (rowStrings latin_square)
           && forallb isUnique_intended (map (colString latin_square) (seq 0 9))
        then SolveString latin_square else SolveFalse).
Proof.
  split; [apply (bool_decide_eq_false_1 _); vm_compute; reflexivity|].
  apply checkSolved_spec. reflexivity.
Defined.

(** Spec scenario 1 submitted twice: the first pass neither stalls nor
    completes the grid, so the instance remembers a later grid and the
    second submission is solved again. *)
Lemma solve_resubmission_witness :
  exists s1 r1, solve intended_methods new_SudokuSolver scenario1 = Some (s1, r1) /\
  (actualPuzzle s1 = scenario1 <->
   pass intended_methods scenario1 = scenario1 \/ dot ∉ pass intended_methods scenario1) /\
  snd <$> solve intended_methods s1 scenario1
  = Some (if bool_decide (actualPuzzle s1 = scenario1) then Ok SolveFalse else r1).
Proof.
  eexists _, _. split; [vm_compute; reflexivity|].
  apply (solve_resubmission intended_methods new_SudokuSolver);
    [reflexivity | decide_by_eval | decide_by_eval | vm_compute; reflexivity].
Defined.

Lemma solve_refines_loop_witness :
  snd <$> solve intended_methods new_SudokuSolver scenario1 = Some (solve_loop intended_methods 82 scenario1).
Proof. apply solve_refines_loop; [reflexivity | decide_by_eval]. Defined.

(** The console on spec scenario 1: the class prints "can't be solved"
    when propagation stalls; on the expected solution it prints the
    solved line and then throws the TypeError. *)
Example class_console_output :
  (fun x => x.2.1) <$> solve_log_fuel SudokuSolver_prototype solve_bound new_SudokuSolver scenario1
  = Some [msg_cant_solve] /\
  (fun x => x.2) <$> solve_log_fuel SudokuSolver_prototype solve_bound new_SudokuSolver scenario1_solution
  = Some ([msg_solved scenario1_solution], Throw notAFunction).
Proof. split; vm_compute; reflexivity. Qed.

Lemma scenario1_solution_of : solution_of scenario1_solution scenario1.
Proof. decide_by_eval. Qed.

Lemma pass_keeps_solution_witness :
  solution_of scenario1_solution (pass SudokuSolver_prototype scenario1) /\
  solution_of scenario1_solution (pass intended_methods scenario1).
Proof. apply pass_keeps_solution. exact scenario1_solution_of. Defined.

Lemma solve_solvable_sound_witness :
  (forall fuel self self' q,
     solve_fuel intended_methods fuel self scenario1 = Some (self', Ok (SolveString q)) ->
     q = scenario1_solution) /\
  (forall fuel self self' q,
     solve_fuel prototype_with_isUnique fuel self scenario1 = Some (self', Ok (SolveString q)) ->
     q = scenario1_solution).
Proof. apply solve_solvable_sound. exact scenario1_solution_of. Defined.

End Adapter.
