(* ===== verification/Routes.v ===== *)
(** Routes.v: the request layer around the engine.  The server and the
    route handlers are not among the repository's sources (the tests
    [require('../server')], which is absent), so [/api/solve] and
    [/api/check] are modelled from the spec (section 1: a thin adapter
    that parses the body and the coordinate and forwards the engine's
    answer) with the messages the functional tests of
    src/tests/2_functional-tests.js expect.  One instance of
    [SudokuSolver] serves every request, so a request sequence threads
    its state; the placement check reads no state. *)

From S2P Require Import Prelude Validate Placement Solver Spec Adapter.

Module Routes.

Import Validate Placement Solver Spec Adapter.
Local Open Scope js_scope.

(** A JSON request body: the fields the routes read, each possibly absent. *)
Record Body := mkBody {
  body_puzzle : option jstr;
  body_coordinate : option jstr;
  body_value : option jsval
}.

(** The JSON answers; [RCrash] is an exception escaping the handler. *)
Inductive Response :=
| RSolution (solution : jstr)
| RError (error : string)
| RValid
| RConflict (conflict : list string)
| RCrash (e : js_error).

#[export] Instance Response_eq_dec : EqDecision Response.
Proof. solve_decision. Defined.

Definition msg_missing_solve : string := "Required field missing".
Definition msg_missing_check : string := "Required field(s) missing".
Definition msg_unsolvable : string := "Puzzle cannot be solved".
Definition msg_coordinate : string := "Invalid coordinate".
Definition msg_value : string := "Invalid value".

(** A coordinate: a row letter A-I and a column digit 1-9, read as the
    zero-based [(row, column)] the checkers take. *)
Definition parse_coordinate (c : jstr) : option (nat * nat) :=
  match c with
  | [r; k] =>
      let row := nat_of_ascii r - 65 in
      let column := nat_of_ascii k - 49 in
      if (65 <=? nat_of_ascii r) && (row <? 9) && (49 <=? nat_of_ascii k) && (column <? 9)
      then Some (row, column) else None
  | _ => None
  end.

(** The coordinate of a zero-based cell. *)
Definition print_coordinate (rc : nat * nat) : jstr :=
  [ascii_of_nat (65 + rc.1); ascii_of_nat (49 + rc.2)].

(** A value is a digit 1-9, sent as a number or a one-character string:
    its string form is one character between '1' and '9'. *)
Definition parse_value (v : jsval) : option nat :=
  match js_String v with
  | [d] => if (49 <=? nat_of_ascii d) && (nat_of_ascii d <=? 57)
           then Some (nat_of_ascii d - 48) else None
  | _ => None
  end.

(** [solve] on the shared instance; the default is never taken
    ([solve_total_spec]). *)
Definition solve_total (m : Methods) (self : SudokuSolver) (p : jstr) : SudokuSolver * throws SolveValue :=
  from_option id (self, Ok SolveFalse) (solve m self p).

(** [POST /api/solve]: a missing puzzle, then the format errors of
    [validate], then the engine's answer; [false] becomes "Puzzle cannot
    be solved" and a thrown error escapes. *)
Definition api_solve (m : Methods) (self : SudokuSolver) (b : Body) : SudokuSolver * Response :=
  match body_puzzle b with
  | None => (self, RError msg_missing_solve)
  | Some p =>
      match validate p with
      | VError msg => (self, RError msg)
      | VTrue =>
          let '(self', r) := solve_total m self p in
          (self', match r with
                  | Ok (SolveString s) => RSolution s
                  | Ok SolveFalse => RError msg_unsolvable
                  | Throw e => RCrash e
                  end)
      end
  end.

(** [POST /api/check]: missing fields, the format errors, the
    coordinate, the value, then the aggregate check, which gets the
    value as the body carries it. *)
Definition api_check (m : Methods) (b : Body) : Response :=
  match body_puzzle b, body_coordinate b, body_value b with
  | Some p, Some c, Some v =>
      match validate p with
      | VError msg => RError msg
      | VTrue =>
          match parse_coordinate c with
          | None => RError msg_coordinate
          | Some (row, column) =>
              match parse_value v with
              | None => RError msg_value
              | Some _ =>
                  match checkPlacement m p row column v with
                  | CheckValid => RValid
                  | CheckConflict l => RConflict l
                  end
              end
          end
      end
  | _, _, _ => RError msg_missing_check
  end.

Inductive Request :=
| ReqSolve (b : Body)
| ReqCheck (b : Body).

Definition serve (m : Methods) (self : SudokuSolver) (q : Request) : SudokuSolver * Response :=
  match q with
  | ReqSolve b => api_solve m self b
  | ReqCheck b => (self, api_check m b)
  end.

(** Requests served one after the other on the shared instance. *)
Fixpoint serve_all (m : Methods) (self : SudokuSolver) (qs : list Request)
  : SudokuSolver * list Response :=
  match qs with
  | [] => (self, [])
  | q :: qs' =>
      let '(s1, r) := serve m self q in
      let '(s2, rs) := serve_all m s1 qs' in
      (s2, r :: rs)
  end.

(** ** Lemmas *)

Lemma solve_total_spec m self p : solve m self p = Some (solve_total m self p).
Proof. unfold solve_total. by destruct (solve_is_some m self p) as [x ->]. Qed.

Lemma parse_print_coordinate row column :
  row < 9 -> column < 9 -> parse_coordinate (print_coordinate (row, column)) = Some (row, column).
Proof.
  intros Hr Hc. cbn [parse_coordinate print_coordinate fst snd].
  rewrite !nat_ascii_embedding by lia.
  replace (65 + row - 65) with row by lia. replace (49 + column - 49) with column by lia.
  assert (Hb : (65 <=? 65 + row) && (row <? 9) && (49 <=? 49 + column) && (column <? 9) = true).
  { rewrite !andb_true_iff, !Nat.leb_le, !Nat.ltb_lt. lia. }
  by rewrite Hb.
Qed.

Lemma parse_coordinate_print c rc :
  parse_coordinate c = Some rc -> rc.1 < 9 /\ rc.2 < 9 /\ c = print_coordinate rc.
Proof.
  destruct c as [|r [|k [|? ?]]]; cbn [parse_coordinate]; try discriminate.
  destruct ((65 <=? nat_of_ascii r) && _ && _ && _) eqn:Hb; [|discriminate].
  rewrite !andb_true_iff, !Nat.leb_le, !Nat.ltb_lt in Hb. intros [= <-].
  unfold print_coordinate. cbn [fst snd]. split_and!; [lia|lia|].
  replace (65 + (nat_of_ascii r - 65)) with (nat_of_ascii r) by lia.
  replace (49 + (nat_of_ascii k - 49)) with (nat_of_ascii k) by lia.
  by rewrite !ascii_nat_embedding.
Qed.

(** ** Properties *)

(** The coordinate round trip: the coordinates the check route accepts
    are exactly the printed forms "A1".."I9" of the 81 cells, and parsing
    a printed cell gives the cell back. *)
Theorem parse_coordinate_iff (c : jstr) (row column : nat) :
  parse_coordinate c = Some (row, column) <-> row < 9 /\ column < 9 /\ c = print_coordinate (row, column).
Proof.
  split; [apply parse_coordinate_print|]. intros (Hr & Hc & ->). by apply parse_print_coordinate.
Qed.

End Routes.
