(* ===== verification/Tests.v ===== *)
(** Tests.v: the repository's two test suites as data, run on the model.
    src/tests/1_unit-tests.js calls the methods of ONE [SudokuSolver]
    instance (line 5) in order, passing [value] as a number;
    src/tests/2_functional-tests.js posts JSON bodies to one server, whose
    routes are modelled in Routes.v.  Running a suite threads the
    instance through its tests in the order they are written. *)

From S2P Require Import Prelude Validate Placement Solver Spec Adapter Routes.

Module Tests.

Import Validate Placement Solver Spec Adapter Routes.
Local Open Scope js_scope.

(** One assertion of the unit suite: the call and its expected result
    ([assert.equal]/[assert.deepEqual] on these operands is equality). *)
Inductive UnitTest :=
| UValidate (p : jstr) (expected : ValidateResult)
| URow (p : jstr) (row column : nat) (value : jsval) (expected : bool)
| UCol (p : jstr) (row column : nat) (value : jsval) (expected : bool)
| URegion (p : jstr) (row column : nat) (value : jsval) (expected : bool)
| USolve (p : jstr) (expected : SolveValue).

(** Whether the test passes, and the instance after it; a thrown error
    fails the test. *)
Definition run_unit (m : Methods) (self : SudokuSolver) (t : UnitTest) : SudokuSolver * bool :=
  match t with
  | UValidate p e => (self, bool_decide (validate p = e))
  | URow p r c v e => (self, Bool.eqb (m_checkRowPlacement m p r c v) e)
  | UCol p r c v e => (self, Bool.eqb (m_checkColPlacement m p r c v) e)
  | URegion p r c v e => (self, Bool.eqb (m_checkRegionPlacement m p r c v) e)
  | USolve p e =>
      let '(self', r) := solve_total m self p in
      (self', match r with Ok v => bool_decide (v = e) | Throw _ => false end)
  end.

Fixpoint run_unit_suite (m : Methods) (self : SudokuSolver) (ts : list UnitTest) : list bool :=
  match ts with
  | [] => []
  | t :: ts' => let '(self', ok) := run_unit m self t in ok :: run_unit_suite m self' ts'
  end.

Definition unit_tests : list UnitTest := [
  UValidate fixture VTrue;
  UValidate (js "1x5xx2.84..63.12.7.2..5.....9..1....8.2.3674.3.7.2..9.47...8..1..16....926914.37.")
    (VError msg_chars);
  UValidate (js "..839.7.575.....96..1.......16.29846.9.312.7..754.....62..5.78.8...3.2...492...1")
    (VError msg_length);
  URow unit_puzzle 0 1 (JNum 3) true;
  URow unit_puzzle 0 1 (JNum 5) false;
  UCol unit_puzzle 0 1 (JNum 3) true;
  UCol unit_puzzle 0 1 (JNum 2) false;
  URegion unit_puzzle 0 1 (JNum 3) true;
  URegion unit_puzzle 0 1 (JNum 6) false;
  USolve scenario1 (SolveString scenario1_solution);
  USolve (js ".7.8x.....5c...3.4.2..4..1.5689..472...6.....1.7.5.63873.1.2.8.6..47.1..2.9.387.6")
    SolveFalse;
  USolve (js "82..4..6...16..89...98315.749.157.............53..4...96.415..81..7632..3...28.51")
    (SolveString (js "827549163531672894649831527496157382218396475753284916962415738185763249374928651"))
].

(** One functional test: a request and the assertions on its answer. *)
Record FunctionalTest := mkFunctionalTest {
  ft_request : Request;
  ft_expect : Response -> bool
}.

Definition expect_solution (r : Response) : bool :=
  match r with RSolution _ => true | _ => false end.
Definition expect_error (msg : string) (r : Response) : bool :=
  match r with RError e => bool_decide (e = msg) | _ => false end.
Definition expect_valid (r : Response) : bool :=
  match r with RValid => true | _ => false end.
Definition expect_conflicts (n : nat) (r : Response) : bool :=
  match r with RConflict l => length l =? n | _ => false end.

Definition unsolvable : jstr :=
  js "5..97372.3...8.5.9.9.25..8.68.47.23...95..46.7.4.....5.2.......4..8916..85.72...2".
Definition bad_chars : jstr :=
  js "x..91372.3...8.5.9.9.25..8.68.47.23...95..46.7.4.....5.2.......4..8916..85.72...y".
Definition short_puzzle : jstr :=
  js "5..91372.3...8.5.9.9.25..8.68.47.23...95..46.7.4.....5.2.......4..8916..85.72...".

Definition check_body (p : jstr) (c : string) (v : nat) : Body :=
  mkBody (Some p) (Some (js c)) (Some (JNum v)).

(** The tests in file order; the two "Check a puzzle placement with
    invalid characters / incorrect length" tests post to [/api/solve]. *)
Definition functional_tests : list FunctionalTest := [
  mkFunctionalTest (ReqSolve (mkBody (Some fixture) None None)) expect_solution;
  mkFunctionalTest (ReqSolve (mkBody None None None)) (expect_error msg_missing_solve);
  mkFunctionalTest (ReqSolve (mkBody (Some bad_chars) None None)) (expect_error msg_chars);
  mkFunctionalTest (ReqSolve (mkBody (Some short_puzzle) None None)) (expect_error msg_length);
  mkFunctionalTest (ReqSolve (mkBody (Some unsolvable) None None)) (expect_error msg_unsolvable);
  mkFunctionalTest (ReqCheck (check_body fixture "A3" 8)) expect_valid;
  mkFunctionalTest (ReqCheck (check_body fixture "A3" 2)) (expect_conflicts 1);
  mkFunctionalTest (ReqCheck (check_body fixture "A3" 3)) (expect_conflicts 2);
  mkFunctionalTest (ReqCheck (check_body fixture "A3" 9)) (expect_conflicts 3);
  mkFunctionalTest (ReqCheck (mkBody (Some fixture) (Some (js "A3")) None)) (expect_error msg_missing_check);
  mkFunctionalTest (ReqSolve (check_body bad_chars "A3" 8)) (expect_error msg_chars);
  mkFunctionalTest (ReqSolve (check_body short_puzzle "A3" 8)) (expect_error msg_length);
  mkFunctionalTest (ReqCheck (check_body fixture "K3" 8)) (expect_error msg_coordinate);
  mkFunctionalTest (ReqCheck (check_body fixture "A3" 12)) (expect_error msg_value)
].

(** The suite against one server: the answers of [serve_all], checked. *)
Definition run_functional_suite (m : Methods) : list bool :=
  zip_with ft_expect functional_tests
    (serve_all m new_SudokuSolver (ft_request <$> functional_tests)).2.

(** ** The suites on the model *)

(** The unit suite, run in order on one instance: the class as
    written passes 9 of the 12 tests, failing "an invalid region
    placement" (the region check accepts the 6) and the two expected
    solutions (propagation without regions stalls and [solve] returns
    [false]); with the spec's region check and [isUnique] every test
    passes. *)
Example unit_suite_results :
  run_unit_suite SudokuSolver_prototype new_SudokuSolver unit_tests
  = [true; true; true; true; true; true; true; true; false; false; true; false] /\
  run_unit_suite intended_methods new_SudokuSolver unit_tests = repeat true 12.
Proof. split; vm_compute; reflexivity. Qed.

(** The functional suite against one server: with the class as
    written the valid puzzle gets "Puzzle cannot be solved" and "A3" with
    3 and with 9 report one and two conflicts where two and three are
    expected, so 3 of the 14 tests fail; with the spec's methods all 14
    pass. *)
Example functional_suite_results :
  run_functional_suite SudokuSolver_prototype
  = [false; true; true; true; true; true; true; false; false; true; true; true; true; true] /\
  run_functional_suite intended_methods = repeat true 14.
Proof. split; vm_compute; reflexivity. Qed.

(** A number equal to the digit at the cell: with the spec's methods the
    check route reports all three houses for 5 at "A1", where the digit
    already stands, and accepts the string "5". *)
Example check_number_at_own_cell :
  api_check intended_methods (check_body fixture "A1" 5)
  = RConflict ["row"%string; "column"%string; "region"%string] /\
  api_check intended_methods (mkBody (Some fixture) (Some (js "A1")) (Some (JStr (js "5")))) = RValid.
Proof. split; vm_compute; reflexivity. Qed.

(** The race of spec section 5, in sequence: after another client's
    request for spec scenario 1, the shared instance remembers the last
    blank grid of that run; a request for exactly that grid, which a
    fresh server solves, is answered "Puzzle cannot be solved". *)
Example shared_instance_race :
  let X := actualPuzzle (api_solve intended_methods new_SudokuSolver (mkBody (Some scenario1) None None)).1 in
  (serve_all intended_methods new_SudokuSolver [ReqSolve (mkBody (Some X) None None)]).2
  = [RSolution scenario1_solution] /\
  (serve_all intended_methods new_SudokuSolver
     [ReqSolve (mkBody (Some scenario1) None None); ReqSolve (mkBody (Some X) None None)]).2
  = [RSolution scenario1_solution; RError msg_unsolvable].
Proof. split; vm_compute; reflexivity. Qed.

End Tests.
